(** * Lexy: the glossary store and its three-tier search

    A shallow embedding of [lexy/models.py], [lexy/glossary.py] and
    [lexy/search.py].  Python strings are modelled by [string] (characters
    are code points below 256, [lower] folds the ASCII and the Latin-1
    capitals as [str.lower] does), the
    insertion-ordered [dict] holding the corpus by an association list, the
    normalized index by a [gmap], the [set] of seen terms by a [gset], and
    the real-valued scores and confidences by rationals. *)

From Stdlib Require Import Ascii QArith Lqa.
From stdpp Require Import gmap strings list sorting.

(** ** Strings *)

(** [str.lower()] on one character.  Below 256 the capitals are the ASCII
    letters 65..90 and the Latin-1 letters 192..214 and 216..222 (215 is the
    multiplication sign); each is 32 below its small letter. *)
Definition lower_char (c : ascii) : ascii :=
  let n := nat_of_ascii c in
  if (((65 <=? n)%nat && (n <=? 90)%nat) ||
      ((192 <=? n)%nat && (n <=? 214)%nat) ||
      ((216 <=? n)%nat && (n <=? 222)%nat))%bool
  then ascii_of_nat (n + 32) else c.

(** [str.lower()]. *)
Fixpoint lower (s : string) : string :=
  match s with
  | EmptyString => EmptyString
  | String c s' => String (lower_char c) (lower s')
  end.

(** [s.startswith(p)]. *)
Definition startswith (s p : string) : bool := String.prefix p s.

(** [T'] is a casing of [T]: both fold to the same lowercase string. *)
Definition casing_of (T' T : string) : Prop := lower T' = lower T.

(** ** Python's stable sort

    [sorted] and [list.sort] are stable.  [py_sort leb] is the stable
    insertion sort for the preorder [leb]: an element is placed in front of
    the first element of the sorted tail that it does not have to follow. *)

Section Sort.
Context {A : Type} (leb : A → A → bool).

Fixpoint sort_insert (x : A) (l : list A) : list A :=
    match l with
    | [] => [x]
    | y :: l' => if leb x y then x :: y :: l' else y :: sort_insert x l'
    end.

Fixpoint py_sort (l : list A) : list A :=
    match l with
    | [] => []
    | x :: l' => sort_insert x (py_sort l')
    end.
End Sort.

(** ** models.py *)

(** [class Definition(BaseModel)]. *)
Record Definition_ := mkDefinition {
  text : string;
  see_also : list string
}.

(** [class GlossaryTerm(BaseModel)]. *)
Record GlossaryTerm := mkGlossaryTerm {
  gt_term : string;
  gt_definitions : list Definition_
}.

(** [class TermResult(BaseModel)]. *)
Record TermResult := mkTermResult {
  term : string;
  definitions : list Definition_;
  confidence : Q;
  match_type : string
}.

(** [suggestion.match_type = ...]: assignment to the field of a result. *)
Definition set_match_type (mt : string) (r : TermResult) : TermResult :=
  {| term := term r; definitions := definitions r;
     confidence := confidence r; match_type := mt |}.

(** ** The corpus

    The corpus is the mapping read from the YAML source: term name to a
    mapping that may carry a ['definitions'] sequence.  An entry of that
    sequence is either a mapping, with optional ['text'] and ['see_also']
    keys, or anything else, of which only [str(def_data)] is used. *)

Inductive def_data :=
  | DefMapping (d_text : option string) (d_see_also : option (list string))
  | DefOther (d_repr : string).

Record term_data := mkTermData {
  td_definitions : option (list def_data);
  td_other_keys : list string
}.

(** The empty mapping [{}]. *)
Definition empty_term_data : term_data :=
  {| td_definitions := None; td_other_keys := [] |}.

(** Truthiness of a mapping: [not term_data] holds of [{}] only. *)
Definition is_empty (td : term_data) : bool :=
  match td_definitions td, td_other_keys td with
  | None, [] => true
  | _, _ => false
  end.

(** [d.get(k)] on an insertion-ordered dict. *)
Fixpoint dict_get {V : Type} (d : list (string * V)) (k : string) : option V :=
  match d with
  | [] => None
  | (k', v) :: d' => if decide (k' = k) then Some v else dict_get d' k
  end.

(** [d.keys()]. *)
Definition keys {V : Type} (d : list (string * V)) : list string := d.*1.

(** ** glossary.py *)

(** The three attributes of [GlossaryManager] that hold the store. *)
Record GlossaryManager := mkManager {
  glossary : list (string * term_data);
  normalized_terms : gmap string string;
  all_searchable_terms : list string
}.

(** The state set up by [__init__] before it calls [load_glossary]. *)
Definition empty_manager : GlossaryManager :=
  {| glossary := []; normalized_terms := ∅; all_searchable_terms := [] |}.

(** One pair of writes of [_build_search_indexes]:
    [normalized_terms[name.lower()] = owner] and
    [all_searchable_terms.append(name)]. *)
Definition index_add (name owner : string)
    (ix : gmap string string * list string) : gmap string string * list string :=
  (<[lower name := owner]> ix.1, ix.2 ++ [name]).

(** The [see_also] names visited for one definition entry: those of a
    mapping that has the key. *)
Definition def_see_also (d : def_data) : list string :=
  match d with
  | DefMapping _ (Some sa) => sa
  | _ => []
  end.

(** The body of the loop over [self.glossary.keys()]. *)
Definition index_term (g : list (string * term_data))
    (ix : gmap string string * list string) (t : string) :
    gmap string string * list string :=
  let term_data := default empty_term_data (dict_get g t) in
  foldl (λ ix d, foldl (λ ix sa, index_add sa t ix) ix (def_see_also d))
        (index_add t t ix)
        (default [] (td_definitions term_data)).

(** [_build_search_indexes]: both indexes are rebuilt from empty. *)
Definition build_search_indexes (g : list (string * term_data)) :
    gmap string string * list string :=
  foldl (index_term g) (∅, []) (keys g).

(** The store holding corpus [g] after a successful load. *)
Definition loaded (g : list (string * term_data)) : GlossaryManager :=
  let ix := build_search_indexes g in
  {| glossary := g; normalized_terms := ix.1; all_searchable_terms := ix.2 |}.

(** [get_term_data]. *)
Definition get_term_data (m : GlossaryManager) (t : string) : term_data :=
  default empty_term_data (dict_get (glossary m) t).

(** The conversion of one entry in [get_term_object]. *)
Definition to_definition (d : def_data) : Definition_ :=
  match d with
  | DefMapping t sa => {| text := default "" t; see_also := default [] sa |}
  | DefOther repr => {| text := repr; see_also := [] |}
  end.

(** [get_term_object]. *)
Definition get_term_object (m : GlossaryManager) (t : string) : GlossaryTerm :=
  let term_data := get_term_data m t in
  if is_empty term_data then {| gt_term := t; gt_definitions := [] |}
  else {| gt_term := t;
          gt_definitions :=
            to_definition <$> default [] (td_definitions term_data) |}.

(** [term_exists]. *)
Definition term_exists (m : GlossaryManager) (t : string) : bool :=
  bool_decide (t ∈ keys (glossary m)).

(** [get_original_term]. *)
Definition get_original_term (m : GlossaryManager) (name : string) : string :=
  default name (normalized_terms m !! lower name).

(** The order of Python's string comparison: lexicographic on code points. *)
Definition str_le (s1 s2 : string) : bool := String.leb s1 s2.

(** [list_terms]; [None] is the absent prefix, and an empty prefix is
    falsy as well. *)
Definition list_terms (m : GlossaryManager) (prefix : option string) : list string :=
  let terms := keys (glossary m) in
  let terms :=
    match prefix with
    | Some p =>
        if decide (p = "") then terms
        else filter (λ t, startswith (lower t) (lower p) = true) terms
    | None => terms
    end in
  py_sort str_le terms.

(** [sep.join(parts)]. *)
Definition join (sep : string) (parts : list string) : string :=
  match parts with
  | [] => ""
  | p :: ps => foldl (λ acc q, acc +:+ sep +:+ q) p ps
  end.

(** [get_all_terms_text]; [list(set(names))] enumerates the distinct names
    in an order Python does not fix, so the enumeration is a parameter. *)
Definition get_all_terms_text (list_of_set : list string → list string)
    (m : GlossaryManager) : string :=
  let text_parts :=
    foldl (λ parts t,
      let term_obj := get_term_object m t in
      let definitions_text := join "; " (text <$> gt_definitions term_obj) in
      let parts := parts ++ [t +:+ ": " +:+ definitions_text] in
      let all_see_also := gt_definitions term_obj ≫= see_also in
      match all_see_also with
      | [] => parts
      | _ => parts ++ ["  (See also: " +:+ join ", " (list_of_set all_see_also) +:+ ")"]
      end) [] (keys (glossary m)) in
  join (String "010"%char EmptyString) text_parts.

(** ** search.py *)

(** The result of a call that may raise. *)
Inductive outcome (A : Type) :=
  | Returned (a : A)
  | Raised.
Arguments Returned {A} a.
Arguments Raised {A}.

(** [results[:n]]. *)
Definition top (n : nat) {A : Type} (l : list A) : list A := take n l.

(** The request built by [AgenticSearch.search]: the query, with the
    context appended when one is given (an empty context is falsy). *)
Definition full_query (query : string) (context : option string) : string :=
  match context with
  | Some c => if decide (c = "") then query
              else query +:+ " (Context: " +:+ c +:+ ")"
  | None => query
  end.

Section Search.
(** [rapidfuzz.fuzz.WRatio], the weighted similarity of two strings; the
    library documents its range as 0 to 100. *)
Variable WRatio : string → string → Q.

(** The order of [extract]: higher scores first. *)
Definition by_score_desc (a b : string * Q * nat) : bool :=
  Qle_bool b.1.2 a.1.2.

(** Modelled from the spec: [rapidfuzz.process.extract] is a library
    function outside the repository.  Every choice is scored against the
    query, the choices scoring at least [score_cutoff] are kept, ordered
    by descending score (earlier choices first among equal scores), and
    the first [limit] are returned as [(choice, score, index)]. *)
Definition extract (query : string) (choices : list string)
    (limit : nat) (score_cutoff : Q) : list (string * Q * nat) :=
  top limit
    (py_sort by_score_desc
       (filter (λ c, Qle_bool score_cutoff c.1.2 = true)
               (imap (λ i c, (c, WRatio query c, i)) choices))).

(** The body of the loop over [matches] in [FuzzySearch.search]; the
    state is [(results, seen_terms)]. *)
Definition search_step (m : GlossaryManager)
    (st : list TermResult * gset string) (mt : string * Q * nat) :
    list TermResult * gset string :=
  let '(match_text, score, _) := mt in
  let original_term := get_original_term m match_text in
  if decide (original_term ∈ st.2) then st
  else
    let seen_terms := {[original_term]} ∪ st.2 in
    if term_exists m original_term then
      let term_obj := get_term_object m original_term in
      (st.1 ++ [ {| term := original_term;
                    definitions := gt_definitions term_obj;
                    confidence := score / 100;
                    match_type := "fuzzy" |} ],
       seen_terms)
    else (st.1, seen_terms).

(** The order of [results.sort(key=lambda x: x.confidence, reverse=True)]. *)
Definition by_confidence_desc (a b : TermResult) : bool :=
  Qle_bool (confidence b) (confidence a).

(** The matches [FuzzySearch.search] asks [extract] for. *)
Definition search_matches (m : GlossaryManager) (query : string)
    (threshold : Z) : list (string * Q * nat) :=
  extract query (all_searchable_terms m) 10 (inject_Z threshold).

(** The list [results] of [FuzzySearch.search] before the final sort. *)
Definition search_results (m : GlossaryManager) (query : string)
    (threshold : Z) : list TermResult :=
  (foldl (search_step m) ([], ∅) (search_matches m query threshold)).1.

(** [FuzzySearch.search]. *)
Definition search (m : GlossaryManager) (query : string) (threshold : Z) :
    list TermResult :=
  match all_searchable_terms m with
  | [] => []
  | _ => py_sort by_confidence_desc (search_results m query threshold)
  end.

(** [FuzzySearch.get_suggestions]. *)
Definition get_suggestions (m : GlossaryManager) (query : string)
    (threshold : Z) (max_suggestions : nat) : list string :=
  match all_searchable_terms m with
  | [] => []
  | choices =>
      let matches := extract query choices max_suggestions (inject_Z threshold) in
      (foldl (λ (st : list string * gset string) (mt : string * Q * nat),
                let original_term := get_original_term m mt.1.1 in
                if decide (original_term ∈ st.2) then st
                else (st.1 ++ [original_term], {[original_term]} ∪ st.2))
             ([], ∅) matches).1
  end.

(** [ExactSearch.lookup]. *)
Definition lookup (m : GlossaryManager) (t : string) : list TermResult :=
  let normalized_term := lower t in
  match normalized_terms m !! normalized_term with
  | Some original_term =>
      let term_obj := get_term_object m original_term in
      [ {| term := original_term;
           definitions := gt_definitions term_obj;
           confidence := 1;
           match_type := "exact" |} ]
  | None => set_match_type "suggestion" <$> top 3 (search m t 60)
  end.

(** The list the fallback of [AgenticSearch.search] returns on a store of
    well-typed terms: the top 3 of the fuzzy search at threshold 60,
    relabelled. *)
Definition agentic_fallback (m : GlossaryManager) (query : string) :
    list TermResult :=
  set_match_type "agentic_fallback" <$> top 3 (search m query 60).

End Search.

(** ** Loading

    [load_glossary] runs on whatever [yaml.safe_load] returns, so the loader
    is modelled over untyped Python values, in a state monad with
    exceptions: a raise keeps the state reached so far, which is what the
    [except] clause then sees. *)

Module Raw.

#[local] Unset Elimination Schemes.
Inductive pyval :=
  | PNone
  | PBool (b : bool)
  | PInt (z : Z)
  | PStr (s : string)
  | PList (l : list pyval)
  | PDict (d : list (pyval * pyval)).
#[local] Set Elimination Schemes.

(** What [load_glossary] prints. *)
Inductive message :=
  | MsgLoaded (n : nat)
  | MsgNotFound
  | MsgError.

(** The attributes of the manager, and standard output. *)
Record state := mkState {
  glossary : pyval;
  normalized_terms : gmap string string;
  all_searchable_terms : list string;
  printed : list message
}.

Definition M (A : Type) : Type := state → outcome A * state.

#[global] Instance M_ret : MRet M := λ A a s, (Returned a, s).
#[global] Instance M_bind : MBind M := λ A B f c s,
  match c s with
  | (Returned a, s') => f a s'
  | (Raised, s') => (Raised, s')
  end.

Definition raise {A : Type} : M A := λ s, (Raised, s).

(** Lifting of a pure computation that may raise. *)
Definition lift {A : Type} (o : outcome A) : M A := λ s, (o, s).

(** [try: body except Exception: handler]. *)
Definition try_except {A : Type} (body handler : M A) : M A := λ s,
  match body s with
  | (Returned a, s') => (Returned a, s')
  | (Raised, s') => handler s'
  end.

(** [for x in l: body]. *)
Fixpoint for_each {A : Type} (l : list A) (body : A → M unit) : M unit :=
  match l with
  | [] => mret ()
  | x :: l' => body x ≫= λ _, for_each l' body
  end.

(** Equality of dictionary keys ([True == 1] and [False == 0]). *)
Definition key_eqb (a b : pyval) : bool :=
  match a, b with
  | PNone, PNone => true
  | PBool x, PBool y => bool_decide (x = y)
  | PInt x, PInt y => bool_decide (x = y)
  | PBool x, PInt y | PInt y, PBool x => bool_decide (y = if x then 1%Z else 0%Z)
  | PStr x, PStr y => bool_decide (x = y)
  | _, _ => false
  end.

Fixpoint assoc (d : list (pyval * pyval)) (k : pyval) : option pyval :=
  match d with
  | [] => None
  | (k', v) :: d' => if key_eqb k' k then Some v else assoc d' k
  end.

(** [v.keys()]: only a dict has the method. *)
Definition py_keys (v : pyval) : outcome (list pyval) :=
  match v with
  | PDict d => Returned d.*1
  | _ => Raised
  end.

(** [v[k]]: the callers subscript dicts by one of their keys; anything
    else raises. *)
Definition py_getitem (v k : pyval) : outcome pyval :=
  match v with
  | PDict d => match assoc d k with Some x => Returned x | None => Raised end
  | _ => Raised
  end.

(** [v.get(k, dflt)]: only a dict has the method. *)
Definition py_get (v : pyval) (k : string) (dflt : pyval) : outcome pyval :=
  match v with
  | PDict d => Returned (default dflt (assoc d (PStr k)))
  | _ => Raised
  end.

(** [k in v] after [isinstance(v, dict)]. *)
Definition dict_has (v : pyval) (k : string) : bool :=
  match v with
  | PDict d => bool_decide (is_Some (assoc d (PStr k)))
  | _ => false
  end.

Fixpoint chars (s : string) : list pyval :=
  match s with
  | EmptyString => []
  | String c s' => PStr (String c EmptyString) :: chars s'
  end.

(** [for x in v]: lists, dicts (their keys) and strings (their
    characters) are iterable. *)
Definition py_iter (v : pyval) : outcome (list pyval) :=
  match v with
  | PList l => Returned l
  | PDict d => Returned d.*1
  | PStr s => Returned (chars s)
  | _ => Raised
  end.

(** [v.lower()]: only a string has the method; the result is paired
    with the string itself. *)
Definition py_lower (v : pyval) : outcome (string * string) :=
  match v with
  | PStr s => Returned (lower s, s)
  | _ => Raised
  end.

(** Reading an attribute of the manager. *)
Definition get_glossary : M pyval := λ s, (Returned (glossary s), s).

(** [self.glossary = y]. *)
Definition set_glossary (y : pyval) : M unit := λ s,
  (Returned (),
   {| glossary := y; normalized_terms := normalized_terms s;
      all_searchable_terms := all_searchable_terms s; printed := printed s |}).

(** [self.normalized_terms = {}; self.all_searchable_terms = []]. *)
Definition reset_indexes : M unit := λ s,
  (Returned (),
   {| glossary := glossary s; normalized_terms := ∅;
      all_searchable_terms := []; printed := printed s |}).

(** [self.normalized_terms[key] = owner;
     self.all_searchable_terms.append(name)]. *)
Definition index_write (key owner name : string) : M unit := λ s,
  (Returned (),
   {| glossary := glossary s;
      normalized_terms := <[key := owner]> (normalized_terms s);
      all_searchable_terms := all_searchable_terms s ++ [name];
      printed := printed s |}).

Definition print (msg : message) : M unit := λ s,
  (Returned (),
   {| glossary := glossary s; normalized_terms := normalized_terms s;
      all_searchable_terms := all_searchable_terms s;
      printed := printed s ++ [msg] |}).

(** The loop over [definition['see_also']]. *)
Definition index_see_also (owner : string) (definition : pyval) : M unit :=
  if dict_has definition "see_also" then
    sa ← lift (py_getitem definition (PStr "see_also"));
    names ← lift (py_iter sa);
    for_each names (λ see_also,
      n ← lift (py_lower see_also);
      index_write n.1 owner n.2)
  else mret ().

(** The body of the loop over [self.glossary.keys()]. *)
Definition index_term (t : pyval) : M unit :=
  n ← lift (py_lower t);
  _ ← index_write n.1 n.2 n.2;
  g ← get_glossary;
  term_data ← lift (py_getitem g t);
  defs ← lift (py_get term_data "definitions" (PList []));
  ds ← lift (py_iter defs);
  for_each ds (index_see_also n.2).

(** [_build_search_indexes]. *)
Definition build_search_indexes : M unit :=
  _ ← reset_indexes;
  g ← get_glossary;
  ks ← lift (py_keys g);
  for_each ks index_term.

(** What [load_glossary] finds at [glossary_path]: no file, a file that
    cannot be opened or parsed, or a file parsed to a value. *)
Inductive source :=
  | Missing
  | Unreadable
  | Parsed (y : pyval).

(** [len(v)] of the loaded value. *)
Definition py_len (v : pyval) : outcome nat :=
  match v with
  | PDict d => Returned (length d)
  | PList l => Returned (length l)
  | PStr s => Returned (String.length s)
  | _ => Raised
  end.

(** The [try] block of [load_glossary]. *)
Definition load_try (src : source) : M unit :=
  match src with
  | Missing => print MsgNotFound
  | Unreadable => raise
  | Parsed y =>
      _ ← set_glossary y;
      _ ← build_search_indexes;
      g ← get_glossary;
      n ← lift (py_len g);
      print (MsgLoaded n)
  end.

(** The [except Exception] clause of [load_glossary]. *)
Definition load_except : M unit := λ s,
  (Returned (),
   {| glossary := PDict []; normalized_terms := ∅;
      all_searchable_terms := []; printed := printed s ++ [MsgError] |}).

(** [load_glossary]. *)
Definition load_glossary (src : source) : M unit :=
  try_except (load_try src) load_except.

(** [__init__]: the attributes are set to empty, then [load_glossary]
    runs. *)
Definition init (src : source) : outcome unit * state :=
  load_glossary src
    {| glossary := PDict []; normalized_terms := ∅;
       all_searchable_terms := []; printed := [] |}.

(** All three parts of the store are empty. *)
Definition store_empty (s : state) : Prop :=
  glossary s = PDict [] ∧ normalized_terms s = ∅ ∧ all_searchable_terms s = [].

(** The encoding of a typed corpus as the value [yaml.safe_load]
    returns for it. *)
Definition encode_def (d : def_data) : pyval :=
  match d with
  | DefMapping t sa =>
      PDict (match t with Some x => [(PStr "text", PStr x)] | None => [] end ++
             match sa with
             | Some l => [(PStr "see_also", PList (PStr <$> l))]
             | None => []
             end)
  | DefOther repr => PStr repr
  end.

Definition encode_term_data (td : term_data) : pyval :=
  PDict (match td_definitions td with
         | Some ds => [(PStr "definitions", PList (encode_def <$> ds))]
         | None => []
         end ++
         ((λ k, (PStr k, PNone)) <$>
            filter (λ k, k ≠ "definitions") (td_other_keys td))).

Definition encode (g : list (string * term_data)) : pyval :=
  PDict ((λ kv, (PStr kv.1, encode_term_data kv.2)) <$> g).

(** The two indexes of a state, and their replacement. *)
Definition indexes (s : state) : gmap string string * list string :=
(normalized_terms s, all_searchable_terms s).

Definition with_indexes (s : state) (ix : gmap string string * list string) : state :=
{| glossary := glossary s; normalized_terms := ix.1;
   all_searchable_terms := ix.2; printed := printed s |}.

End Raw.

(** The loader's state holds the store [m]: the corpus of [m], encoded, and
    the two indexes of [m]. *)
Definition holds (s : Raw.state) (m : GlossaryManager) : Prop :=
  Raw.glossary s = Raw.encode (glossary m) ∧
  Raw.normalized_terms s = normalized_terms m ∧
  Raw.all_searchable_terms s = all_searchable_terms m.

(** ** The search operations on whatever the loader left

    The loader accepts corpora whose definitions are not well typed (it
    never reads a ['text']), and the manager then fails where it builds a
    [Definition].  The operations of [AgenticSearch.search] are therefore
    modelled over the untyped store, with the exceptions they can raise. *)

#[global] Instance outcome_ret : MRet outcome := λ A a, Returned a.
#[global] Instance outcome_bind : MBind outcome := λ A B f o,
  match o with
  | Returned a => f a
  | Raised => Raised
  end.

(** A loop that threads an accumulator and stops at the first raise. *)
Fixpoint fold_outcome {A B : Type} (f : A → B → outcome A) (a : A)
    (l : list B) : outcome A :=
  match l with
  | [] => Returned a
  | x :: l' => f a x ≫= λ a', fold_outcome f a' l'
  end.

(** A comprehension whose body may raise. *)
Fixpoint map_outcome {A B : Type} (f : A → outcome B) (l : list A) :
    outcome (list B) :=
  match l with
  | [] => Returned []
  | x :: l' => f x ≫= λ y, map_outcome f l' ≫= λ ys, Returned (y :: ys)
  end.

(** What the capability does when run: it answers with a list of names,
    raises an [Exception], or is interrupted by a [BaseException] that is
    not an [Exception] (a cancelled task, a keyboard interrupt). *)
Inductive run_result :=
  | Answered (names : list string)
  | Failed
  | Aborted.

(** The ways a [try] block with an [except Exception] clause ends: with a
    value, with an exception the clause catches, or with one it lets
    through. *)
Inductive attempt (A : Type) :=
  | Done (a : A)
  | Caught
  | Escaped.
Arguments Done {A} a.
Arguments Caught {A}.
Arguments Escaped {A}.

Module Untyped.
Import Raw.

(** Truthiness: [None], [False], [0] and the empty string, list and dict
    are falsy. *)
Definition py_truthy (v : pyval) : bool :=
  match v with
  | PNone => false
  | PBool b => b
  | PInt z => bool_decide (z ≠ 0%Z)
  | PStr s => bool_decide (s ≠ "")
  | PList [] => false
  | PList _ => true
  | PDict [] => false
  | PDict _ => true
  end.

(** [t in v] for a string [t]: a key of a dict, an element of a list, a
    substring of a string; other values are not containers. *)
Definition py_contains (v : pyval) (t : string) : outcome bool :=
  match v with
  | PDict d => Returned (bool_decide (is_Some (assoc d (PStr t))))
  | PList l => Returned (existsb (λ x, key_eqb x (PStr t)) l)
  | PStr s => Returned (bool_decide (is_Some (String.index 0 t s)))
  | _ => Raised
  end.

(** Modelled from the spec: [pydantic] is a library outside the
    repository.  The data model has [text] a string and [see_also] a
    sequence of strings; building a [Definition] from anything else raises
    [ValidationError]. *)
Definition validate_str (v : pyval) : outcome string :=
  match v with
  | PStr s => Returned s
  | _ => Raised
  end.

Definition validate_str_list (v : pyval) : outcome (list string) :=
  match v with
  | PList l => map_outcome validate_str l
  | _ => Raised
  end.

Section Operations.
(** [rapidfuzz.fuzz.WRatio]. *)
Variable WRatio : string → string → Q.
(** [str(v)] of a value that is not a string. *)
Variable repr : pyval → string.
(** [list(set(names))]: the order in which Python enumerates a set. *)
Variable list_of_set : list string → list string.

(** [str(v)]. *)
Definition py_str (v : pyval) : string :=
  match v with
  | PStr s => s
  | _ => repr v
  end.

(** The conversion of one entry in [get_term_object]. *)
Definition to_definition (def_data : pyval) : outcome Definition_ :=
  match def_data with
  | PDict _ =>
      py_get def_data "text" (PStr "") ≫= λ text_value,
      py_get def_data "see_also" (PList []) ≫= λ see_also_value,
      validate_str text_value ≫= λ text,
      validate_str_list see_also_value ≫= λ see_also,
      Returned {| text := text; see_also := see_also |}
  | _ => Returned {| text := py_str def_data; see_also := [] |}
  end.

(** [get_term_object], with [get_term_data] inlined:
    [self.glossary.get(term, {})]. *)
Definition get_term_object (s : state) (t : string) : outcome GlossaryTerm :=
  py_get (glossary s) t (PDict []) ≫= λ term_data,
  if py_truthy term_data then
    py_get term_data "definitions" (PList []) ≫= λ defs,
    py_iter defs ≫= λ ds,
    map_outcome to_definition ds ≫= λ definitions,
    Returned {| gt_term := t; gt_definitions := definitions |}
  else Returned {| gt_term := t; gt_definitions := [] |}.

(** [term_exists]: [term in self.glossary]. *)
Definition term_exists (s : state) (t : string) : outcome bool :=
  py_contains (glossary s) t.

(** [get_original_term]. *)
Definition get_original_term (s : state) (name : string) : string :=
  default name (normalized_terms s !! lower name).

(** The body of the loop over [matches] in [FuzzySearch.search]. *)
Definition search_step (s : state)
    (st : list TermResult * gset string) (mt : string * Q * nat) :
    outcome (list TermResult * gset string) :=
  let '(match_text, score, _) := mt in
  let original_term := get_original_term s match_text in
  if decide (original_term ∈ st.2) then Returned st
  else
    let seen_terms := {[original_term]} ∪ st.2 in
    term_exists s original_term ≫= λ found,
    if found : bool then
      get_term_object s original_term ≫= λ term_obj,
      Returned (st.1 ++ [ {| term := original_term;
                             definitions := gt_definitions term_obj;
                             confidence := score / 100;
                             match_type := "fuzzy" |} ],
                seen_terms)
    else Returned (st.1, seen_terms).

(** [FuzzySearch.search]. *)
Definition search (s : state) (query : string) (threshold : Z) :
    outcome (list TermResult) :=
  match all_searchable_terms s with
  | [] => Returned []
  | choices =>
      fold_outcome (search_step s) ([], ∅)
        (extract WRatio query choices 10 (inject_Z threshold)) ≫= λ st,
      Returned (py_sort by_confidence_desc st.1)
  end.

(** [get_all_terms_text]. *)
Definition get_all_terms_text (s : state) : outcome string :=
  py_keys (glossary s) ≫= λ ks,
  fold_outcome (λ text_parts k,
    match k with
    | PStr t =>
        get_term_object s t ≫= λ term_obj,
        let definitions_text := join "; " (text <$> gt_definitions term_obj) in
        let text_parts := text_parts ++ [t +:+ ": " +:+ definitions_text] in
        let all_see_also := gt_definitions term_obj ≫= see_also in
        Returned
          match all_see_also with
          | [] => text_parts
          | _ => text_parts ++
                   ["  (See also: " +:+ join ", " (list_of_set all_see_also) +:+ ")"]
          end
    | _ => Raised
    end) [] ks ≫= λ text_parts,
  Returned (join (String "010"%char EmptyString) text_parts).

(** The fallback of [AgenticSearch.search]; it runs outside the [try]
    block. *)
Definition agentic_fallback (s : state) (query : string) :
    outcome (list TermResult) :=
  search s query 60 ≫= λ results,
  Returned (set_match_type "agentic_fallback" <$> top 3 results).

(** The [try] block of [AgenticSearch.search]; [run] is the capability,
    [agent.run(full_query, deps=glossary_text)]. *)
Definition agentic_try (run : string → string → run_result)
    (s : state) (query : string) (context : option string) :
    attempt (list TermResult) :=
  let full_query := full_query query context in
  match get_all_terms_text s with
  | Raised => Caught
  | Returned glossary_text =>
      match run full_query glossary_text with
      | Aborted => Escaped
      | Failed => Caught
      | Answered relevant_terms =>
          match
            fold_outcome (λ responses t,
              term_exists s t ≫= λ found,
              if found : bool then
                get_term_object s t ≫= λ term_obj,
                Returned (responses ++
                            [ {| term := t;
                                 definitions := gt_definitions term_obj;
                                 confidence := 1;
                                 match_type := "agentic" |} ])
              else Returned responses) [] relevant_terms
          with
          | Returned responses => Done responses
          | Raised => Caught
          end
      end
  end.

(** [AgenticSearch.search]; [agent] is [None] when initialization failed.
    The result is the outcome seen by the caller. *)
Definition agentic_search (agent : option (string → string → run_result))
    (s : state) (query : string) (context : option string) :
    outcome (list TermResult) :=
  match agent with
  | None => agentic_fallback s query
  | Some run =>
      match agentic_try run s query context with
      | Done responses => Returned responses
      | Caught => agentic_fallback s query
      | Escaped => Raised
      end
  end.

End Operations.
End Untyped.

(** ** The writes of the index builder, as a list *)

(** The [see_also] names of term [t], in the order the builder visits
    them. *)
Definition see_also_of (g : list (string * term_data)) (t : string) : list string :=
  default [] (td_definitions (default empty_term_data (dict_get g t)))
    ≫= def_see_also.

(** The [(name, owner)] pairs written by [_build_search_indexes], in
    order: per key, the key itself and then its [see_also] names. *)
Definition index_entries (g : list (string * term_data)) : list (string * string) :=
  keys g ≫= λ t, (λ n, (n, t)) <$> (t :: see_also_of g t).

(** Every name written to the index that folds to the lowercase form of
    [n] is written for [owner]: no other key, and no [see_also] name of
    another term, shares the lowercase form of [n]. *)
Definition owned_by (g : list (string * term_data)) (n owner : string) : Prop :=
  Forall (λ e, lower e.1 = lower n → e.2 = owner) (index_entries g).

(** The single result of a successful [lookup] for canonical term [t]. *)
Definition exact_result (m : GlossaryManager) (t : string) : TermResult :=
  {| term := t;
     definitions := gt_definitions (get_term_object m t);
     confidence := 1;
     match_type := "exact" |}.

(** ** Sample data *)

(** A small scorer with the range of [WRatio], to run the definitions on
    concrete inputs: 100 for strings equal up to case, 75 when the first
    characters agree up to case, 0 otherwise. *)
Definition sample_ratio (q c : string) : Q :=
  if decide (lower q = lower c) then 100
  else match lower q, lower c with
       | String a _, String b _ => if decide (a = b) then 75 else 0
       | _, _ => 0
       end.

Definition one_definition (t : string) (sa : list string) : term_data :=
  {| td_definitions := Some [DefMapping (Some t) (Some sa)];
     td_other_keys := [] |}.

(** The corpus of the specification's scenario. *)
Definition http_corpus : list (string * term_data) :=
  [("HTTP", one_definition "HyperText Transfer Protocol" ["web protocol"])].

(** Two keys that differ in case only. *)
Definition case_corpus : list (string * term_data) :=
  [("HTTP", one_definition "HyperText Transfer Protocol" []);
   ("http", one_definition "the URL scheme" [])].

(** A cross-reference to a term that has its own entry. *)
Definition xref_corpus : list (string * term_data) :=
  [("HTTP", one_definition "HyperText Transfer Protocol" ["TCP"]);
   ("TCP", one_definition "Transmission Control Protocol" [])].

(** The same two terms, the cross-reference coming last. *)
Definition shadow_corpus : list (string * term_data) :=
  [("TCP", one_definition "Transmission Control Protocol" []);
   ("HTTP", one_definition "HyperText Transfer Protocol" ["TCP"])].

(** Several names with a common first letter. *)
Definition web_corpus : list (string * term_data) :=
  [("HTTP", one_definition "HyperText Transfer Protocol" ["hypertext"; "web protocol"]);
   ("HTML", one_definition "HyperText Markup Language" ["hypertext"]);
   ("TCP", one_definition "Transmission Control Protocol" [])].

(** A corpus whose only term has no mapping for its data: [HTTP:] with
    nothing after the colon. *)
Definition bare_key_source : Raw.source :=
  Raw.Parsed (Raw.PDict [(Raw.PStr "HTTP", Raw.PNone)]).

(** A corpus in which the second term has a number among its [see_also]
    names. *)
Definition bad_see_also_source : Raw.source :=
  Raw.Parsed (Raw.PDict
    [(Raw.PStr "HTTP", Raw.encode_term_data (one_definition "HyperText Transfer Protocol" ["web protocol"]));
     (Raw.PStr "TCP",
      Raw.PDict [(Raw.PStr "definitions",
                  Raw.PList [Raw.PDict [(Raw.PStr "see_also",
                                         Raw.PList [Raw.PStr "transport"; Raw.PInt 6])]])])]).

(** Five terms, four of which share their first letter. *)
Definition many_corpus : list (string * term_data) :=
  [("HTTP", one_definition "HyperText Transfer Protocol" []);
   ("HTML", one_definition "HyperText Markup Language" []);
   ("HTTPS", one_definition "HTTP over TLS" []);
   ("Hub", one_definition "a network device" []);
   ("TCP", one_definition "Transmission Control Protocol" [])].

(** Names with Latin-1 letters: "Éclair", "éclair" and "é" (201 is the
    capital and 233 the small e with acute accent). *)
Definition Eclair : string := String "201"%char "clair".
Definition eclair : string := String "233"%char "clair".
Definition e_acute : string := String "233"%char "".

Definition latin_corpus : list (string * term_data) :=
  [("Zabaglione", one_definition "a custard" []);
   (Eclair, one_definition "a pastry" ["Choux"]);
   ("Eclipse", one_definition "an occultation" [])].

(** A corpus the loader accepts although the text of its definition is a
    number: [HTTP: {definitions: [{text: 123}]}]. *)
Definition number_text_source : Raw.source :=
  Raw.Parsed (Raw.PDict
    [(Raw.PStr "HTTP",
      Raw.PDict [(Raw.PStr "definitions",
                  Raw.PList [Raw.PDict [(Raw.PStr "text", Raw.PInt 123)]])])]).

(** ** The loop of the fuzzy search, as a recursion *)

(** The result [FuzzySearch.search] builds for canonical term [o] matched
    with [score]. *)
Definition fuzzy_result (m : GlossaryManager) (o : string) (score : Q) : TermResult :=
  {| term := o;
     definitions := gt_definitions (get_term_object m o);
     confidence := score / 100;
     match_type := "fuzzy" |}.

(** The canonical term of a match. *)
Definition match_term (m : GlossaryManager) (mt : string * Q * nat) : string :=
  get_original_term m mt.1.1.

(** The results the loop appends for the matches [ms] once the terms of
    [seen] have been recorded. *)
Fixpoint fresh_results (m : GlossaryManager) (seen : gset string)
    (ms : list (string * Q * nat)) : list TermResult :=
  match ms with
  | [] => []
  | mt :: ms' =>
      let o := match_term m mt in
      if decide (o ∈ seen) then fresh_results m seen ms'
      else (if term_exists m o then [fuzzy_result m o mt.1.2] else [])
             ++ fresh_results m ({[o]} ∪ seen) ms'
  end.

(** Equality of rationals is decidable. *)
#[local] Instance Qeq_decision (x y : Q) : Decision (x == y)%Q := Qeq_dec x y.

(** The scores of [sample_ratio] are within the range of [WRatio]. *)
Definition in_ratio_range (ratio : string → string → Q) : Prop :=
  ∀ q c, (0 <= ratio q c <= 100)%Q.

(** ** The loop of [get_suggestions], as a recursion *)

(** The names the loop of [FuzzySearch.get_suggestions] appends for the
    matches [ms] once the terms of [seen] have been recorded. *)
Fixpoint fresh_terms (m : GlossaryManager) (seen : gset string)
    (ms : list (string * Q * nat)) : list string :=
  match ms with
  | [] => []
  | mt :: ms' =>
      let o := match_term m mt in
      if decide (o ∈ seen) then fresh_terms m seen ms'
      else o :: fresh_terms m ({[o]} ∪ seen) ms'
  end.

(** ** __main__.py

    The tools return [result.model_dump()] for each result, the dictionary
    of its four fields; the embedding keeps the record. *)

(** The test of [lookup_term] and [batch_lookup_terms] for an exact match:
    [results and results[0].match_type == "exact"]. *)
Definition reports_exact (results : list TermResult) : bool :=
  match results with
  | r :: _ => bool_decide (match_type r = "exact")
  | [] => false
  end.

(** The dictionary built by [batch_lookup_terms]: each requested term is
    assigned its lookup results, a later request replacing an earlier one
    for the same term. *)
Definition batch_lookup_terms (WRatio : string → string → Q)
    (m : GlossaryManager) (terms : list string) : gmap string (list TermResult) :=
  foldl (λ results t, <[t := lookup WRatio m t]> results) ∅ terms.

(** The count [exact_matches] that [batch_lookup_terms] prints, over the
    values of the dictionary. *)
Definition batch_exact_matches (WRatio : string → string → Q)
    (m : GlossaryManager) (terms : list string) : nat :=
  length (filter (λ kv, reports_exact kv.2 = true)
                 (map_to_list (batch_lookup_terms WRatio m terms))).

(** ** config.py *)

(** The three credentials [Config] reads from the environment; [None] is an
    unset variable. *)
Record Config := mkConfig {
  OPENAI_API_KEY : option string;
  GEMINI_API_KEY : option string;
  ANTHROPIC_API_KEY : option string
}.

(** [Config.has_api_key_for_model]. *)
Definition has_api_key_for_model (cfg : Config) (model : string) : bool :=
  if startswith model "openai:" then bool_decide (OPENAI_API_KEY cfg ≠ None)
  else if startswith model "gemini:" || startswith model "google-gla:"
       then bool_decide (GEMINI_API_KEY cfg ≠ None)
  else if startswith model "anthropic:"
       then bool_decide (ANTHROPIC_API_KEY cfg ≠ None)
  else false.

(** [Config.get_missing_key_warning]. *)
Definition get_missing_key_warning (model : string) : string :=
  if startswith model "openai:"
  then "Warning: OPENAI_API_KEY not set but using OpenAI model"
  else if startswith model "gemini:" || startswith model "google-gla:"
       then "Warning: GEMINI_API_KEY not set but using Gemini model"
  else if startswith model "anthropic:"
       then "Warning: ANTHROPIC_API_KEY not set but using Anthropic model"
  else "Warning: Unknown model type: " +:+ model.

(** What [main] prints about credentials before it starts the server. *)
Definition startup_warning (cfg : Config) (model : string) : option string :=
  if has_api_key_for_model cfg model then None
  else Some (get_missing_key_warning model).

(** ** Shapes of loaded values *)

Definition is_str (v : Raw.pyval) : bool :=
  match v with Raw.PStr _ => true | _ => false end.

Definition is_dict (v : Raw.pyval) : bool :=
  match v with Raw.PDict _ => true | _ => false end.

(** The names of a store that reach the cutoff of a fuzzy search. *)
Definition passing_names (WRatio : string → string → Q) (m : GlossaryManager)
    (query : string) (threshold : Z) : list string :=
  filter (λ name, Qle_bool (inject_Z threshold) (WRatio query name) = true)
         (all_searchable_terms m).

(** ** Facts about the sort *)

Section SortFacts.
Context {A : Type} (leb : A → A → bool).

Lemma sort_insert_perm x l : sort_insert leb x l ≡ₚ x :: l.
  Proof.
    induction l as [|y l IH]; simpl; [done|].
    destruct (leb x y); [done|]. rewrite IH. apply Permutation_swap.
  Qed.

Lemma py_sort_perm l : py_sort leb l ≡ₚ l.
  Proof.
    induction l as [|x l IH]; simpl; [done|].
    by rewrite sort_insert_perm, IH.
  Qed.

Lemma py_sort_length l : length (py_sort leb l) = length l.
  Proof. by rewrite py_sort_perm. Qed.

Lemma py_sort_elem_of x l : x ∈ py_sort leb l ↔ x ∈ l.
  Proof. by rewrite py_sort_perm. Qed.

Hypothesis leb_total : ∀ x y, leb x y = true ∨ leb y x = true.

Lemma sort_insert_sorted x l :
    Sorted (λ a b, leb a b = true) l →
    Sorted (λ a b, leb a b = true) (sort_insert leb x l).
  Proof.
    induction 1 as [|y l Hs IH Hhd]; simpl; [by repeat constructor|].
    destruct (leb x y) eqn:Hxy.
    - constructor; [by constructor|by constructor].
    - constructor; [done|].
      destruct Hhd as [|z l Hyz]; simpl.
      + constructor. destruct (leb_total x y); congruence.
      + destruct (leb x z); constructor; [|done].
        destruct (leb_total x y); congruence.
  Qed.

Lemma py_sort_sorted l : Sorted (λ a b, leb a b = true) (py_sort leb l).
  Proof.
    induction l as [|x l IH]; simpl; [constructor|].
    by apply sort_insert_sorted.
  Qed.

  (** Stability: a class [P] of mutually tied elements keeps its order. *)
Lemma sort_insert_filter (P : A → Prop) `{∀ x, Decision (P x)} x l :
    (∀ a b, P a → P b → leb a b = true) →
    filter P (sort_insert leb x l) = filter P (x :: l).
  Proof.
    intros Htie. induction l as [|y l IH]; simpl; [done|].
    destruct (leb x y) eqn:Hxy; [done|].
    rewrite !filter_cons in *.
    destruct (decide (P y)) as [Hy|Hy], (decide (P x)) as [Hx|Hx];
      try (by rewrite IH).
    rewrite (Htie x y) in Hxy; done.
  Qed.

Lemma py_sort_filter (P : A → Prop) `{∀ x, Decision (P x)} l :
    (∀ a b, P a → P b → leb a b = true) →
    filter P (py_sort leb l) = filter P l.
  Proof.
    intros Htie. induction l as [|x l IH]; simpl; [done|].
    rewrite sort_insert_filter by done. by rewrite !filter_cons, IH.
  Qed.

  (** A sorted list is left as it is. *)
Lemma py_sort_id l :
    (∀ a b c, leb a b = true → leb b c = true → leb a c = true) →
    Sorted (λ a b, leb a b = true) l → py_sort leb l = l.
  Proof.
    intros Htrans Hs.
    assert (Transitive (λ a b, leb a b = true)) by (intros ???; apply Htrans).
    apply Sorted_StronglySorted in Hs; [|done].
    induction Hs as [|x l Hs IH Hall]; simpl; [done|].
    rewrite IH. destruct Hall as [|y l Hxy _]; simpl; [done|]. by rewrite Hxy.
  Qed.
End SortFacts.

(** ** Facts about the index builder *)

Lemma foldl_bind {A B C} (f : A → B → A) (h : C → list B) (a : A) (l : list C) :
  foldl f a (l ≫= h) = foldl (λ a x, foldl f a (h x)) a l.
Proof.
  revert a. induction l as [|x l IH]; intros a; [done|].
  rewrite bind_cons, foldl_app. apply IH.
Qed.

(** The builder performs exactly the writes of [index_entries], in order. *)
Lemma build_search_indexes_entries g :
  build_search_indexes g =
  foldl (λ ix e, index_add e.1 e.2 ix) (∅, []) (index_entries g).
Proof.
  unfold build_search_indexes, index_entries.
  rewrite foldl_bind. generalize (∅ : gmap string string, [] : list string).
  induction (keys g) as [|t l IH]; intros ix; [done|].
  simpl. rewrite <- IH. f_equal.
  unfold index_term, see_also_of. rewrite foldl_fmap, foldl_bind. done.
Qed.

(** A key for which every write is made for [o], and for which there is a
    write (or [o] was there before), ends up mapped to [o]. *)
Lemma index_lookup_owned (es : list (string * string)) ix k o :
  Forall (λ e, lower e.1 = k → e.2 = o) es →
  (∃ e, e ∈ es ∧ lower e.1 = k) ∨ ix.1 !! k = Some o →
  (foldl (λ ix e, index_add e.1 e.2 ix) ix es).1 !! k = Some o.
Proof.
  revert ix. induction es as [|e es IH]; intros ix Hall Hex; simpl.
  - destruct Hex as [(e & He & _)|]; [by apply elem_of_nil in He|done].
  - apply Forall_cons in Hall as [He Hall]. apply IH; [done|].
    destruct (decide (lower e.1 = k)) as [Heq|Hne].
    + right. simpl. rewrite Heq, He by done. apply lookup_insert_eq.
    + destruct Hex as [(e' & He' & Hk)|Hix].
      * apply elem_of_cons in He' as [->|He']; [done|]. left; eauto.
      * right. simpl. by rewrite lookup_insert_ne.
Qed.

(** A mapping of the index comes from one of the writes. *)
Lemma index_lookup_inv (es : list (string * string)) ix k o :
  (foldl (λ ix e, index_add e.1 e.2 ix) ix es).1 !! k = Some o →
  (∃ n, (n, o) ∈ es ∧ lower n = k) ∨ ix.1 !! k = Some o.
Proof.
  revert ix. induction es as [|[n o'] es IH]; intros ix; simpl; [by right|].
  intros H. apply IH in H as [(n' & Hn' & Hk)|H].
  - left. exists n'. split; [by right|done].
  - simpl in H. rewrite lookup_insert in H. case_decide as Hk.
    + left. exists n. split; [|done]. injection H as ->. by left.
    + by right.
Qed.

(** A key no write folds to stays unmapped. *)
Lemma index_lookup_none (es : list (string * string)) ix k :
  Forall (λ e, lower e.1 ≠ k) es → ix.1 !! k = None →
  (foldl (λ ix e, index_add e.1 e.2 ix) ix es).1 !! k = None.
Proof.
  revert ix. induction es as [|e es IH]; intros ix Hall Hix; simpl; [done|].
  apply Forall_cons in Hall as [He Hall]. apply IH; [done|].
  simpl. by rewrite lookup_insert_ne.
Qed.

(** The searchable names are the written names, in order. *)
Lemma index_names (es : list (string * string)) ix :
  (foldl (λ ix e, index_add e.1 e.2 ix) ix es).2 = ix.2 ++ es.*1.
Proof.
  revert ix. induction es as [|e es IH]; intros ix; simpl.
  - by rewrite app_nil_r.
  - rewrite IH. simpl. by rewrite <- app_assoc.
Qed.

Lemma index_entries_owner g n o : (n, o) ∈ index_entries g → o ∈ keys g.
Proof.
  unfold index_entries. rewrite list_elem_of_bind.
  intros (t & Hin & Ht). apply list_elem_of_fmap in Hin as (n' & Heq & _).
  by injection Heq as -> ->.
Qed.

Lemma index_entries_key g t : t ∈ keys g → (t, t) ∈ index_entries g.
Proof.
  intros Ht. unfold index_entries. apply list_elem_of_bind.
  exists t. split; [|done]. simpl. by left.
Qed.

Lemma index_entries_see_also g t s :
  t ∈ keys g → s ∈ see_also_of g t → (s, t) ∈ index_entries g.
Proof.
  intros Ht Hs. unfold index_entries. apply list_elem_of_bind.
  exists t. split; [|done]. simpl. right.
  apply list_elem_of_fmap. by exists s.
Qed.

(** The normalized map of a loaded store, through [owned_by]. *)
Lemma loaded_lookup_owned g n n' o :
  (n, o) ∈ index_entries g → owned_by g n o → lower n' = lower n →
  normalized_terms (loaded g) !! lower n' = Some o.
Proof.
  intros Hin Hown Hcase. simpl. rewrite build_search_indexes_entries, Hcase.
  apply index_lookup_owned; [done|]. left. by exists (n, o).
Qed.

(** Every value of the normalized map of a loaded store is a key of the
    table. *)
Lemma loaded_lookup_key g k o :
  normalized_terms (loaded g) !! k = Some o → o ∈ keys g.
Proof.
  simpl. rewrite build_search_indexes_entries.
  intros [(n & Hn & _)|H]%index_lookup_inv; [|done].
  by eapply index_entries_owner.
Qed.

Lemma index_lookup_is_Some (es : list (string * string)) ix k :
  (∃ e, e ∈ es ∧ lower e.1 = k) ∨ is_Some (ix.1 !! k) →
  is_Some ((foldl (λ ix e, index_add e.1 e.2 ix) ix es).1 !! k).
Proof.
  revert ix. induction es as [|e es IH]; intros ix Hex; simpl.
  - destruct Hex as [(e & He & _)|]; [by apply elem_of_nil in He|done].
  - apply IH. simpl. rewrite lookup_insert. case_decide as Hk; [by right|].
    destruct Hex as [(e' & He' & Hk')|Hix]; [|by right].
    apply elem_of_cons in He' as [->|He']; [done|]. left; eauto.
Qed.

(** Every written name resolves, in any casing, to some key of the table. *)
Lemma loaded_lookup_is_Some g n n' o :
  (n, o) ∈ index_entries g → lower n' = lower n →
  ∃ o', normalized_terms (loaded g) !! lower n' = Some o' ∧ o' ∈ keys g.
Proof.
  intros Hin Hcase.
  assert (is_Some (normalized_terms (loaded g) !! lower n')) as [o' Ho'].
  { simpl. rewrite build_search_indexes_entries.
    apply index_lookup_is_Some. left. by exists (n, o). }
  exists o'. split; [done|]. by eapply loaded_lookup_key.
Qed.

(** The searchable names of a loaded store are the written names. *)
Lemma loaded_searchable g :
  all_searchable_terms (loaded g) = (index_entries g).*1.
Proof. simpl. by rewrite build_search_indexes_entries, index_names. Qed.

(** A string no written name folds to is not in the normalized map. *)
Lemma loaded_lookup_None g k :
  Forall (λ e, lower e.1 ≠ k) (index_entries g) →
  normalized_terms (loaded g) !! k = None.
Proof.
  intros Hall. simpl. rewrite build_search_indexes_entries.
  by apply index_lookup_none.
Qed.

Lemma dict_get_None {V} (d : list (string * V)) k : k ∉ keys d → dict_get d k = None.
Proof.
  induction d as [|[k' v] d IH]; simpl; [done|].
  rewrite not_elem_of_cons. intros [Hne Hnin].
  case_decide; [congruence|by apply IH].
Qed.

Lemma dict_get_is_Some {V} (d : list (string * V)) k :
  k ∈ keys d → is_Some (dict_get d k).
Proof.
  induction d as [|[k' v] d IH]; simpl; [by intros ?%elem_of_nil|].
  rewrite elem_of_cons. intros [->|Hin]; case_decide; naive_solver.
Qed.

(** ** Exact lookup *)

(** C1 (amended).  For every key [T] of the loaded table and every casing
    [T'] of it, [lookup] returns exactly one result, with confidence 1.0 and
    match type "exact", for a key of the table; the term of that result is
    [T] itself whenever no other key, and no [see_also] name of another
    term, has the lowercase form of [T]. *)
Theorem lookup_key_exact (WRatio : string → string → Q) g T T' :
  T ∈ keys g → casing_of T' T →
  (∃ o, o ∈ keys g ∧ lookup WRatio (loaded g) T' = [exact_result (loaded g) o]) ∧
  (owned_by g T T → lookup WRatio (loaded g) T' = [exact_result (loaded g) T]).
Proof.
  intros HT Hcase. pose proof (index_entries_key g T HT) as Hin. split.
  - destruct (loaded_lookup_is_Some g T T' T Hin Hcase) as (o & Ho & Hkey).
    exists o. split; [done|]. unfold lookup. by rewrite Ho.
  - intros Hown. unfold lookup.
    by rewrite (loaded_lookup_owned g T T' T Hin Hown Hcase).
Qed.

Lemma lookup_key_exact_witness :
  Eclair ∈ keys latin_corpus ∧ casing_of eclair Eclair ∧
  owned_by latin_corpus Eclair Eclair ∧
  lookup sample_ratio (loaded latin_corpus) eclair =
    [exact_result (loaded latin_corpus) Eclair].
Proof.
  assert (Eclair ∈ keys latin_corpus) as Hkey by (vm_compute; right; by left).
  assert (casing_of eclair Eclair) as Hcase by reflexivity.
  assert (owned_by latin_corpus Eclair Eclair) as Hown
    by (vm_compute; repeat constructor; discriminate).
  split; [exact Hkey|]. split; [exact Hcase|]. split; [exact Hown|].
  exact (proj2 (lookup_key_exact sample_ratio latin_corpus Eclair eclair Hkey Hcase) Hown).
Defined.

(** C1 as stated fails where two keys differ in case only: the later key
    owns the shared lowercase form, and looking up the earlier key returns
    the later one. *)
Lemma lookup_key_exact_counterexample :
  "HTTP" ∈ keys case_corpus ∧ casing_of "HTTP" "HTTP" ∧
  lookup sample_ratio (loaded case_corpus) "HTTP" =
    [exact_result (loaded case_corpus) "http"] ∧
  lookup sample_ratio (loaded case_corpus) "HTTP" ≠
    [exact_result (loaded case_corpus) "HTTP"].
Proof.
  split; [vm_compute; by left|]. split; [reflexivity|].
  split; [by vm_compute|]. vm_compute. discriminate.
Qed.

(** Case is folded for the Latin-1 letters as well: with keys "Éclair"
    and "éclair" the later key owns the shared lowercase form, so neither
    key is owned by "Éclair" alone and both lookups return "éclair". *)
Lemma lookup_latin1_case_clash :
  let g := [(Eclair, one_definition "a pastry" []);
            (eclair, one_definition "a bolt of lightning" [])] in
  lower Eclair = eclair ∧ ¬ owned_by g Eclair Eclair ∧
  lookup sample_ratio (loaded g) Eclair = [exact_result (loaded g) eclair] ∧
  lookup sample_ratio (loaded g) eclair = [exact_result (loaded g) eclair].
Proof.
  cbv zeta. split; [reflexivity|]. split.
  - unfold owned_by. rewrite Forall_forall. intros Hall.
    assert (eclair = Eclair) as Heq; [|discriminate Heq].
    apply (Hall (eclair, eclair)); [|reflexivity].
    vm_compute. right. by left.
  - split; by vm_compute.
Qed.

(** A [see_also] name written after the key it folds to takes the key's
    place in the normalized map: here "TCP" is a key, and looking it up
    returns the entry of "HTTP", which lists it as a cross-reference. *)
Lemma lookup_key_shadowed_by_see_also :
  "TCP" ∈ keys shadow_corpus ∧
  lookup sample_ratio (loaded shadow_corpus) "TCP" =
    [exact_result (loaded shadow_corpus) "HTTP"].
Proof. split; [vm_compute; by left|by vm_compute]. Qed.

(** The [see_also] names of the definitions a [TermResult] of [t] carries
    are those the index builder visits for [t]. *)
Lemma see_also_of_definitions g t :
  gt_definitions (get_term_object (loaded g) t) ≫= see_also = see_also_of g t.
Proof.
  unfold get_term_object, get_term_data, see_also_of. simpl.
  destruct (default empty_term_data (dict_get g t)) as [[ds|] other]; simpl.
  - induction ds as [|d ds IH]; [done|].
    rewrite fmap_cons, !bind_cons, IH. f_equal. by destruct d as [tx [sa|]|r].
  - by destruct other.
Qed.

(** C2 (amended).  For every [see_also] name [S] of a definition of a loaded
    term [T], provided no key other than [T] and no [see_also] name of
    another term has the lowercase form of [S], [lookup S] returns exactly
    the exact result of [T]: one result, term [T], confidence 1.0, match
    type "exact". *)
Theorem lookup_see_also_exact (WRatio : string → string → Q) g T S :
  T ∈ keys g →
  S ∈ (gt_definitions (get_term_object (loaded g) T) ≫= see_also) →
  owned_by g S T →
  lookup WRatio (loaded g) S = [exact_result (loaded g) T].
Proof.
  intros HT HS Hown. rewrite see_also_of_definitions in HS.
  pose proof (index_entries_see_also g T S HT HS) as Hin.
  unfold lookup. by rewrite (loaded_lookup_owned g S S T Hin Hown eq_refl).
Qed.

Lemma lookup_see_also_exact_witness :
  "HTTP" ∈ keys http_corpus ∧
  "web protocol" ∈
    (gt_definitions (get_term_object (loaded http_corpus) "HTTP") ≫= see_also) ∧
  owned_by http_corpus "web protocol" "HTTP" ∧
  lookup sample_ratio (loaded http_corpus) "web protocol" =
    [exact_result (loaded http_corpus) "HTTP"].
Proof.
  assert ("HTTP" ∈ keys http_corpus) as Hkey by (vm_compute; by left).
  assert ("web protocol" ∈
    (gt_definitions (get_term_object (loaded http_corpus) "HTTP") ≫= see_also))
    as Hsa by (vm_compute; by left).
  assert (owned_by http_corpus "web protocol" "HTTP") as Hown
    by (vm_compute; repeat constructor; discriminate).
  split; [exact Hkey|]. split; [exact Hsa|]. split; [exact Hown|].
  exact (lookup_see_also_exact sample_ratio http_corpus "HTTP" "web protocol"
           Hkey Hsa Hown).
Defined.

(** C2 as stated fails for a cross-reference to a term with its own entry:
    "TCP" is a [see_also] name of "HTTP", and looking it up returns the
    entry of "TCP". *)
Lemma lookup_see_also_exact_counterexample :
  "HTTP" ∈ keys xref_corpus ∧
  "TCP" ∈ (gt_definitions (get_term_object (loaded xref_corpus) "HTTP") ≫= see_also) ∧
  lookup sample_ratio (loaded xref_corpus) "TCP" =
    [exact_result (loaded xref_corpus) "TCP"] ∧
  lookup sample_ratio (loaded xref_corpus) "TCP" ≠
    [exact_result (loaded xref_corpus) "HTTP"].
Proof.
  split; [vm_compute; by left|]. split; [vm_compute; by left|].
  split; [by vm_compute|]. vm_compute. discriminate.
Qed.

(** ** Term objects *)

(** C10.  For a string [T] that is not a key of the table,
    [get_term_object] returns the term object with term [T] and an empty
    list of definitions. *)
Theorem get_term_object_absent m T :
  T ∉ keys (glossary m) →
  get_term_object m T = {| gt_term := T; gt_definitions := [] |}.
Proof.
  intros HT. unfold get_term_object, get_term_data.
  by rewrite dict_get_None.
Qed.

Lemma get_term_object_absent_witness :
  ("FTP" ∉ keys (glossary (loaded http_corpus))) ∧
  get_term_object (loaded http_corpus) "FTP" =
    {| gt_term := "FTP"; gt_definitions := [] |}.
Proof.
  assert ("FTP" ∉ keys (glossary (loaded http_corpus))) as Hnot.
  { simpl. rewrite not_elem_of_cons. split; [discriminate|apply not_elem_of_nil]. }
  split; [done|]. exact (get_term_object_absent (loaded http_corpus) "FTP" Hnot).
Defined.

(** ** Fuzzy search *)

Section FuzzyFacts.
Variable WRatio : string → string → Q.
Implicit Types (m : GlossaryManager) (ms : list (string * Q * nat)).

Lemma search_fold m ms st :
  (foldl (search_step m) st ms).1 = st.1 ++ fresh_results m st.2 ms.
Proof.
  revert st. induction ms as [|[[name score] i] ms IH]; intros [rs seen]; simpl.
  - by rewrite app_nil_r.
  - rewrite IH. unfold match_term. simpl.
    destruct (decide (get_original_term m name ∈ seen)); [done|].
    destruct (term_exists m (get_original_term m name)); simpl; [|done].
    by rewrite <- app_assoc.
Qed.

Lemma search_results_fresh m query threshold :
  search_results WRatio m query threshold =
  fresh_results m ∅ (search_matches WRatio m query threshold).
Proof. unfold search_results. by rewrite search_fold. Qed.

(** [search] is the sort of [search_results], also on an empty store. *)
Lemma search_unfold m query threshold :
  search WRatio m query threshold =
  py_sort by_confidence_desc (search_results WRatio m query threshold).
Proof.
  unfold search, search_results, search_matches, extract.
  by destruct (all_searchable_terms m).
Qed.

(** Each appended result comes from the first match of its canonical
    term, which is a key of the table and was not seen before. *)
Lemma fresh_results_first m seen ms r :
  r ∈ fresh_results m seen ms →
  ∃ l1 mt l2,
    ms = l1 ++ mt :: l2 ∧ r = fuzzy_result m (match_term m mt) mt.1.2 ∧
    term_exists m (match_term m mt) = true ∧
    (match_term m mt ∉ seen) ∧ (match_term m mt ∉ match_term m <$> l1).
Proof.
  revert seen. induction ms as [|mt ms IH]; intros seen; simpl.
  - by intros ?%elem_of_nil.
  - destruct (decide (match_term m mt ∈ seen)) as [Hin|Hnin].
    + intros (l1 & mt' & l2 & -> & -> & Hex & Hs & Hfirst)%IH.
      exists (mt :: l1), mt', l2. repeat split; try done.
      rewrite fmap_cons, not_elem_of_cons. split; [|done]. congruence.
    + rewrite elem_of_app. intros [Hr|Hr].
      * destruct (term_exists m (match_term m mt)) eqn:Hex;
          [|by apply elem_of_nil in Hr].
        apply list_elem_of_singleton in Hr as ->.
        exists [], mt, ms. repeat split; try done. apply not_elem_of_nil.
      * apply IH in Hr as (l1 & mt' & l2 & -> & -> & Hex & Hs & Hfirst).
        apply not_elem_of_union in Hs as [Hne%not_elem_of_singleton Hs].
        exists (mt :: l1), mt', l2. repeat split; try done.
        rewrite fmap_cons, not_elem_of_cons. by split.
Qed.

Lemma fresh_results_NoDup m seen ms : NoDup (term <$> fresh_results m seen ms).
Proof.
  revert seen. induction ms as [|mt ms IH]; intros seen; simpl; [constructor|].
  destruct (decide (match_term m mt ∈ seen)); [apply IH|].
  rewrite fmap_app. apply NoDup_app. split; [|split; [|apply IH]].
  - destruct (term_exists m (match_term m mt)); [apply NoDup_singleton|constructor].
  - intros t Ht (r & -> & Hr)%list_elem_of_fmap.
    apply fresh_results_first in Hr as (_ & mt' & _ & _ & -> & _ & Hs & _).
    destruct (term_exists m (match_term m mt)); [|by apply elem_of_nil in Ht].
    apply list_elem_of_singleton in Ht. simpl in Ht. set_solver.
Qed.

(** Every match whose canonical term is a key of the table and was not
    seen before is represented. *)
Lemma fresh_results_complete m seen ms mt :
  mt ∈ ms → term_exists m (match_term m mt) = true → match_term m mt ∉ seen →
  match_term m mt ∈ term <$> fresh_results m seen ms.
Proof.
  revert seen. induction ms as [|mt' ms IH]; intros seen; simpl.
  - by intros ?%elem_of_nil.
  - intros Hin Hex Hs. destruct (decide (match_term m mt' ∈ seen)) as [Hin'|Hnin].
    + apply elem_of_cons in Hin as [->|Hin]; [done|]. by apply IH.
    + rewrite fmap_app, elem_of_app.
      destruct (decide (match_term m mt = match_term m mt')) as [Heq|Hne].
      * left. rewrite <- Heq, Hex. by apply list_elem_of_singleton.
      * right. apply elem_of_cons in Hin as [->|Hin]; [done|].
        apply IH; [done..|].
        rewrite not_elem_of_union, not_elem_of_singleton. by split.
Qed.

Lemma fresh_results_length m seen ms :
  length (fresh_results m seen ms) ≤ length ms.
Proof.
  revert seen. induction ms as [|mt ms IH]; intros seen; simpl; [done|].
  destruct (decide (match_term m mt ∈ seen)).
  - specialize (IH seen). lia.
  - rewrite length_app. specialize (IH ({[match_term m mt]} ∪ seen)).
    destruct (term_exists m (match_term m mt)); simpl; lia.
Qed.

(** What [extract] returns: at most [limit] triples, each a choice with
    its score, which reaches the cutoff. *)
Lemma extract_length query choices limit cutoff :
  length (extract WRatio query choices limit cutoff) ≤ limit.
Proof. unfold extract, top. rewrite length_take. lia. Qed.

Lemma extract_elem query choices limit cutoff mt :
  mt ∈ extract WRatio query choices limit cutoff →
  choices !! mt.2 = Some mt.1.1 ∧ mt.1.2 = WRatio query mt.1.1 ∧
  (cutoff <= mt.1.2)%Q.
Proof.
  unfold extract, top. intros Hin%subseteq_take.
  apply py_sort_elem_of, list_elem_of_filter in Hin as [Hcut Hin].
  apply elem_of_lookup_imap in Hin as (i & c & -> & Hc). simpl in *.
  split; [done|]. split; [done|]. by apply Qle_bool_iff.
Qed.

End FuzzyFacts.

Lemma StronglySorted_impl {A} (R R' : A → A → Prop) l :
  (∀ a b, R a b → R' a b) → StronglySorted R l → StronglySorted R' l.
Proof.
  intros HR. induction 1 as [|x l Hs IH Hall]; constructor; [done|].
  eapply Forall_impl; [done|]. intros y. apply HR.
Qed.

Lemma by_confidence_desc_total a b :
  by_confidence_desc a b = true ∨ by_confidence_desc b a = true.
Proof.
  unfold by_confidence_desc. rewrite !Qle_bool_iff.
  destruct (Qlt_le_dec (confidence a) (confidence b)) as [?%Qlt_le_weak|?]; auto.
Qed.

Lemma by_confidence_desc_trans a b c :
  by_confidence_desc a b = true → by_confidence_desc b c = true →
  by_confidence_desc a c = true.
Proof.
  unfold by_confidence_desc. rewrite !Qle_bool_iff. intros Hab Hbc.
  by apply Qle_trans with (confidence b).
Qed.

Lemma sample_ratio_range : in_ratio_range sample_ratio.
Proof.
  intros q c. unfold sample_ratio.
  destruct (decide (lower q = lower c)); [split; discriminate|].
  destruct (lower q), (lower c); try (split; discriminate).
  case_decide; split; discriminate.
Qed.

(** C4.  [FuzzySearch.search] returns at most one result per canonical
    term: no two results share their term; each result is built from the
    first match, in extraction order, whose name canonicalizes to its term;
    and every match whose canonical term is in the table is represented. *)
Theorem search_one_result_per_term (WRatio : string → string → Q) m query threshold :
  NoDup (term <$> search WRatio m query threshold) ∧
  (∀ r, r ∈ search WRatio m query threshold →
     ∃ l1 mt l2,
       search_matches WRatio m query threshold = l1 ++ mt :: l2 ∧
       r = fuzzy_result m (match_term m mt) mt.1.2 ∧
       (match_term m mt ∉ match_term m <$> l1)) ∧
  (∀ mt, mt ∈ search_matches WRatio m query threshold →
     term_exists m (match_term m mt) = true →
     match_term m mt ∈ term <$> search WRatio m query threshold).
Proof.
  rewrite search_unfold, search_results_fresh. split; [|split].
  - rewrite py_sort_perm. apply fresh_results_NoDup.
  - intros r Hr%py_sort_elem_of.
    apply fresh_results_first in Hr as (l1 & mt & l2 & ? & ? & _ & _ & ?).
    by exists l1, mt, l2.
  - intros mt Hmt Hex. rewrite py_sort_perm.
    apply fresh_results_complete; [done..|]. apply not_elem_of_empty.
Qed.

(** C5.  The list returned by [FuzzySearch.search] is sorted by
    non-increasing confidence, and the results of any one confidence keep
    the order in which the scoring loop produced them. *)
Theorem search_sorted_stable (WRatio : string → string → Q) m query threshold :
  StronglySorted (λ a b, (confidence b <= confidence a)%Q)
    (search WRatio m query threshold) ∧
  ∀ c : Q,
    filter (λ r, (confidence r == c)%Q) (search WRatio m query threshold) =
    filter (λ r, (confidence r == c)%Q) (search_results WRatio m query threshold).
Proof.
  rewrite search_unfold. split.
  - apply (StronglySorted_impl (λ a b, by_confidence_desc a b = true)).
    { intros a b. unfold by_confidence_desc. by rewrite Qle_bool_iff. }
    apply Sorted_StronglySorted.
    { intros a b c. apply by_confidence_desc_trans. }
    apply py_sort_sorted, by_confidence_desc_total.
  - intros c. apply py_sort_filter. intros a b Ha Hb.
    unfold by_confidence_desc. apply Qle_bool_iff. rewrite Ha, Hb. apply Qle_refl.
Qed.

(** C6.  With scores in the range of [WRatio], every result of
    [FuzzySearch.search] has as confidence the score of a searchable name
    that canonicalizes to its term, divided by 100, hence between
    threshold/100 and 1.0, and has match type "fuzzy"; at most 10 matches
    are taken and at most 10 results returned. *)
Theorem search_confidence_bounds (WRatio : string → string → Q) m query threshold :
  in_ratio_range WRatio →
  (∀ r, r ∈ search WRatio m query threshold →
     (∃ (name : string) (i : nat),
        all_searchable_terms m !! i = Some name ∧
        term r = get_original_term m name ∧
        confidence r = (WRatio query name / 100)%Q) ∧
     (inject_Z threshold / 100 <= confidence r)%Q ∧ (confidence r <= 1)%Q ∧
     match_type r = "fuzzy") ∧
  length (search_matches WRatio m query threshold) ≤ 10 ∧
  length (search WRatio m query threshold) ≤ 10.
Proof.
  intros Hrange. rewrite search_unfold, search_results_fresh.
  pose proof (extract_length WRatio query (all_searchable_terms m) 10
                (inject_Z threshold)) as Hlen.
  split; [|split; [done|]].
  - intros r Hr%py_sort_elem_of.
    apply fresh_results_first in Hr as (l1 & mt & l2 & Hms & -> & _ & _ & _).
    assert (mt ∈ search_matches WRatio m query threshold) as Hin.
    { rewrite Hms. apply elem_of_app. right. by left. }
    apply extract_elem in Hin as (Hname & Hscore & Hcut).
    destruct (Hrange query mt.1.1) as [_ Hle]. simpl.
    split; [by exists mt.1.1, mt.2; rewrite <- Hscore|].
    rewrite Hscore in *. split; [|split; [|done]].
    + apply Qmult_le_compat_r; [done|discriminate].
    + apply Qle_shift_div_r; [reflexivity|]. by rewrite Qmult_1_l.
  - rewrite py_sort_length.
    etrans; [apply fresh_results_length|done].
Qed.

Lemma search_confidence_bounds_witness :
  in_ratio_range sample_ratio ∧
  (∀ r, r ∈ search sample_ratio (loaded web_corpus) "hypertext" 60 →
     (∃ (name : string) (i : nat),
        all_searchable_terms (loaded web_corpus) !! i = Some name ∧
        term r = get_original_term (loaded web_corpus) name ∧
        confidence r = (sample_ratio "hypertext" name / 100)%Q) ∧
     (inject_Z 60 / 100 <= confidence r)%Q ∧ (confidence r <= 1)%Q ∧
     match_type r = "fuzzy") ∧
  length (search_matches sample_ratio (loaded web_corpus) "hypertext" 60) ≤ 10 ∧
  length (search sample_ratio (loaded web_corpus) "hypertext" 60) ≤ 10.
Proof.
  split; [exact sample_ratio_range|].
  exact (search_confidence_bounds sample_ratio (loaded web_corpus) "hypertext" 60
           sample_ratio_range).
Defined.

(** *** The final sort finds the results in order already

    [extract] returns the matches by descending score and the loop keeps
    their order, so the results reach the final sort in non-increasing
    confidence and the sort returns them as they are. *)

Lemma extract_sorted (WRatio : string → string → Q) query choices limit cutoff :
  StronglySorted (λ a b, by_score_desc a b = true)
    (extract WRatio query choices limit cutoff).
Proof.
  unfold extract, top.
  assert (Transitive (λ a b : string * Q * nat, by_score_desc a b = true)) as Htr.
  { intros a b c. unfold by_score_desc. rewrite !Qle_bool_iff. intros Hab Hbc.
    by apply Qle_trans with b.1.2. }
  set (l := py_sort _ _).
  assert (StronglySorted (λ a b, by_score_desc a b = true) l) as Hl.
  { apply Sorted_StronglySorted; [done|]. apply py_sort_sorted.
    intros a b. unfold by_score_desc. rewrite !Qle_bool_iff.
    destruct (Qlt_le_dec a.1.2 b.1.2) as [?%Qlt_le_weak|?]; auto. }
  rewrite <- (take_drop limit l) in Hl. by apply StronglySorted_app_1_l in Hl.
Qed.

Lemma fresh_results_sorted m seen ms :
  StronglySorted (λ a b, by_score_desc a b = true) ms →
  StronglySorted (λ a b, by_confidence_desc a b = true) (fresh_results m seen ms).
Proof.
  intros Hs. revert seen.
  induction Hs as [|mt ms Hs IH Hall]; intros seen; simpl; [constructor|].
  destruct (decide (match_term m mt ∈ seen)); [apply IH|].
  apply StronglySorted_app_2; [|
    destruct (term_exists m (match_term m mt)); repeat constructor|apply IH].
  intros r1 r2 Hr1 Hr2.
  destruct (term_exists m (match_term m mt)); [|by apply elem_of_nil in Hr1].
  apply list_elem_of_singleton in Hr1 as ->.
  apply fresh_results_first in Hr2 as (l1 & mt' & l2 & -> & -> & _).
  rewrite Forall_forall in Hall.
  assert (by_score_desc mt mt' = true) as Hle.
  { apply Hall, elem_of_app. right. by left. }
  unfold by_score_desc, by_confidence_desc in *. simpl.
  apply Qle_bool_iff in Hle. apply Qle_bool_iff.
  apply Qmult_le_compat_r; [done|discriminate].
Qed.

Lemma search_eq_search_results (WRatio : string → string → Q) m query threshold :
  search WRatio m query threshold = search_results WRatio m query threshold.
Proof.
  rewrite search_unfold. apply py_sort_id.
  - apply by_confidence_desc_trans.
  - apply StronglySorted_Sorted. rewrite search_results_fresh.
    apply fresh_results_sorted, extract_sorted.
Qed.

(** ** The labels of fuzzy results *)

Lemma elem_of_search_match_type (WRatio : string → string → Q) m query threshold r :
  r ∈ search WRatio m query threshold → match_type r = "fuzzy".
Proof.
  rewrite search_unfold, search_results_fresh. intros Hr%py_sort_elem_of.
  by apply fresh_results_first in Hr as (_ & mt & _ & _ & -> & _).
Qed.

Lemma relabel_fields mt (l : list TermResult) :
  Forall2 (λ s r, term s = term r ∧ definitions s = definitions r ∧
                  confidence s = confidence r ∧ match_type s = mt)
          (set_match_type mt <$> l) l.
Proof. induction l; constructor; done. Qed.

(** ** Listing terms *)

Lemma str_le_total a b : str_le a b = true ∨ str_le b a = true.
Proof. apply String.leb_total. Qed.


Lemma str_le_trans a b c :
  str_le a b = true → str_le b c = true → str_le a c = true.
Proof.
  unfold str_le, String.leb. revert b c.
  induction a as [|x a IH]; intros [|y b] [|z c]; simpl; try done.
  unfold Ascii.compare.
  destruct (N.compare_spec (N_of_ascii x) (N_of_ascii y)) as [Hxy|Hxy|Hxy],
           (N.compare_spec (N_of_ascii y) (N_of_ascii z)) as [Hyz|Hyz|Hyz];
    try done.
  - rewrite Hxy, Hyz, N.compare_refl. apply IH.
  - intros _ _. rewrite Hxy, (proj2 (N.compare_lt_iff _ _) Hyz). done.
  - intros _ _. rewrite <- Hyz, (proj2 (N.compare_lt_iff _ _) Hxy). done.
  - intros _ _.
    rewrite (proj2 (N.compare_lt_iff _ _) (N.lt_trans _ _ _ Hxy Hyz)). done.
Qed.


(** What [startswith] tests: the first string is the second followed by
    something. *)
Lemma startswith_spec s p : startswith s p = true ↔ ∃ rest, s = p +:+ rest.
Proof.
  unfold startswith. revert s. induction p as [|a p IH]; intros s.
  - split; [intros _; by exists s|]. by destruct s.
  - destruct s as [|b s]; simpl.
    + split; [done|]. by intros [rest Hrest].
    + destruct (ascii_dec a b) as [->|Hne].
      * rewrite IH. split; intros [rest Hrest]; exists rest.
        -- simpl. by rewrite Hrest.
        -- simpl in Hrest. by injection Hrest.
      * split; [done|]. intros [rest Hrest]. simpl in Hrest.
        injection Hrest as Hab _. by destruct Hne.
Qed.



(** The prefix test folds the Latin-1 capitals and rejects what does not
    start with the prefix. *)
Lemma list_terms_latin1 :
  list_terms (loaded latin_corpus) (Some e_acute) = [Eclair] ∧
  list_terms (loaded latin_corpus) (Some "E") = ["Eclipse"] ∧
  list_terms (loaded latin_corpus) None = ["Eclipse"; "Zabaglione"; Eclair].
Proof. repeat split; by vm_compute. Qed.

(** ** Loading *)

(** [load_glossary] returns normally from every source and state. *)
Lemma load_glossary_returns src s : (Raw.load_glossary src s).1 = Returned ().
Proof.
  unfold Raw.load_glossary, Raw.try_except.
  by destruct (Raw.load_try src s) as [[[]|] s'].
Qed.

(** When the [try] block raises, whatever state it had reached, the
    handler leaves all three parts of the store empty and prints the
    error. *)
Lemma load_glossary_raise_resets src s :
  (Raw.load_try src s).1 = Raised →
  Raw.load_glossary src s =
    (Returned (),
     {| Raw.glossary := Raw.PDict []; Raw.normalized_terms := ∅;
        Raw.all_searchable_terms := [];
        Raw.printed := Raw.printed (Raw.load_try src s).2 ++ [Raw.MsgError] |}).
Proof.
  unfold Raw.load_glossary, Raw.try_except.
  destruct (Raw.load_try src s) as [[[]|] s']; simpl; [discriminate|done].
Qed.

(** A missing source is not an exception: the message is printed and the
    store is left as it was. *)
Lemma load_glossary_missing s :
  Raw.load_glossary Raw.Missing s =
    (Returned (),
     {| Raw.glossary := Raw.glossary s;
        Raw.normalized_terms := Raw.normalized_terms s;
        Raw.all_searchable_terms := Raw.all_searchable_terms s;
        Raw.printed := Raw.printed s ++ [Raw.MsgNotFound] |}).
Proof. done. Qed.

(** From the constructor every failed load ends with an empty store. *)
Lemma init_failure_empty src :
  src = Raw.Missing ∨
  (Raw.load_try src {| Raw.glossary := Raw.PDict []; Raw.normalized_terms := ∅;
                   Raw.all_searchable_terms := []; Raw.printed := [] |}).1 = Raised →
  Raw.store_empty (Raw.init src).2.
Proof.
  intros [->|Hraise]; [done|].
  unfold Raw.init. by rewrite load_glossary_raise_resets.
Qed.

(** An exception in the middle of index building: the [try] block stops
    with four names indexed, and the handler clears them. *)
Lemma load_glossary_half_built :
  let s := (Raw.init (Raw.Parsed (Raw.encode http_corpus))).2 in
  (Raw.load_try bad_see_also_source s).1 = Raised ∧
  Raw.all_searchable_terms (Raw.load_try bad_see_also_source s).2 =
    ["HTTP"; "web protocol"; "TCP"; "transport"] ∧
  Raw.store_empty (Raw.load_glossary bad_see_also_source s).2.
Proof. by vm_compute. Qed.

(** *** Loading a well-formed corpus *)

Lemma assoc_encode g t :
  Raw.assoc ((λ kv, (Raw.PStr kv.1, Raw.encode_term_data kv.2)) <$> g) (Raw.PStr t) =
  Raw.encode_term_data <$> dict_get g t.
Proof.
  induction g as [|[k td] g IH]; simpl; [done|].
  destruct (decide (k = t)) as [->|Hne].
  - by rewrite bool_decide_eq_true_2.
  - by rewrite bool_decide_eq_false_2.
Qed.

Lemma assoc_other_keys (ks : list string) :
  Raw.assoc ((λ k, (Raw.PStr k, Raw.PNone)) <$> filter (λ k, k ≠ "definitions") ks)
        (Raw.PStr "definitions") = None.
Proof.
  induction ks as [|k ks IH]; simpl; [done|].
  rewrite filter_cons. case_decide as Hk; [|done].
  simpl. by rewrite bool_decide_eq_false_2.
Qed.

Lemma py_get_definitions td :
  Raw.py_get (Raw.encode_term_data td) "definitions" (Raw.PList []) =
  Returned (Raw.PList (Raw.encode_def <$> default [] (td_definitions td))).
Proof.
  unfold Raw.py_get, Raw.encode_term_data.
  destruct (td_definitions td) as [ds|]; simpl; [done|].
  by rewrite assoc_other_keys.
Qed.

Lemma for_each_see_also owner (l : list string) s :
  Raw.for_each (Raw.PStr <$> l)
    (λ see_also, n ← Raw.lift (Raw.py_lower see_also); Raw.index_write n.1 owner n.2) s =
  (Returned (),
   Raw.with_indexes s (foldl (λ ix sa, index_add sa owner ix) (Raw.indexes s) l)).
Proof.
  revert s. induction l as [|sa l IH]; intros s; simpl.
  - by destruct s.
  - unfold mbind, Raw.M_bind at 1. simpl. unfold mbind, Raw.M_bind at 1. simpl.
    rewrite IH. done.
Qed.

Lemma index_see_also_encode owner d s :
  Raw.index_see_also owner (Raw.encode_def d) s =
  (Returned (),
   Raw.with_indexes s (foldl (λ ix sa, index_add sa owner ix) (Raw.indexes s)
                         (def_see_also d))).
Proof.
  destruct d as [tx [sa|]|repr];
    [|by destruct tx, s|by destruct s].
  unfold Raw.index_see_also.
  assert (Raw.dict_has (Raw.encode_def (DefMapping tx (Some sa))) "see_also" = true) as ->.
  { by destruct tx. }
  assert (Raw.py_getitem (Raw.encode_def (DefMapping tx (Some sa))) (Raw.PStr "see_also") =
          Returned (Raw.PList (Raw.PStr <$> sa))) as Hget.
  { by destruct tx. }
  unfold mbind at 1, Raw.M_bind at 1, Raw.lift at 1. rewrite Hget.
  unfold mbind at 1, Raw.M_bind at 1, Raw.lift at 1. simpl.
  apply for_each_see_also.
Qed.

Lemma indexes_with_indexes s ix : Raw.indexes (Raw.with_indexes s ix) = ix.
Proof. by destruct ix. Qed.

Lemma for_each_definitions owner (ds : list def_data) s :
  Raw.for_each (Raw.encode_def <$> ds) (Raw.index_see_also owner) s =
  (Returned (),
   Raw.with_indexes s
     (foldl (λ ix d, foldl (λ ix sa, index_add sa owner ix) ix (def_see_also d))
            (Raw.indexes s) ds)).
Proof.
  revert s. induction ds as [|d ds IH]; intros s; simpl.
  - by destruct s.
  - unfold mbind at 1, Raw.M_bind at 1.
    rewrite index_see_also_encode, IH, indexes_with_indexes. done.
Qed.

(** On an encoded corpus the loop body performs the writes of the typed
    [index_term]. *)
Lemma index_term_encode g t s :
  Raw.glossary s = Raw.encode g → t ∈ keys g →
  Raw.index_term (Raw.PStr t) s =
  (Returned (), Raw.with_indexes s (index_term g (Raw.indexes s) t)).
Proof.
  intros Hg Ht. apply dict_get_is_Some in Ht as [td Htd].
  unfold Raw.index_term, index_term. rewrite Htd. simpl.
  unfold mbind at 1, Raw.M_bind at 1, Raw.lift at 1. simpl.
  unfold mbind at 1, Raw.M_bind at 1, Raw.index_write at 1. simpl.
  unfold mbind at 1, Raw.M_bind at 1, Raw.get_glossary at 1. simpl.
  rewrite Hg. unfold Raw.encode at 1.
  unfold mbind at 1, Raw.M_bind at 1, Raw.lift at 1, Raw.py_getitem.
  rewrite assoc_encode, Htd. simpl.
  pose proof (py_get_definitions td) as Hdefs.
  unfold Raw.py_get, Raw.encode_term_data in Hdefs. injection Hdefs as ->.
  unfold mbind at 1, Raw.M_bind at 1, Raw.lift at 1. simpl.
  unfold mbind at 1, Raw.M_bind at 1, Raw.lift at 1.
  rewrite for_each_definitions. unfold Raw.with_indexes. simpl. by rewrite Hg.
Qed.

Lemma for_each_terms g (l : list string) s :
  Raw.glossary s = Raw.encode g → l ⊆ keys g →
  Raw.for_each (Raw.PStr <$> l) Raw.index_term s =
  (Returned (), Raw.with_indexes s (foldl (index_term g) (Raw.indexes s) l)).
Proof.
  revert s. induction l as [|t l IH]; intros s Hg Hl; simpl.
  - by destruct s.
  - unfold mbind at 1, Raw.M_bind at 1.
    rewrite (index_term_encode g) by (done || set_solver).
    rewrite IH by (done || set_solver).
    by rewrite indexes_with_indexes.
Qed.

Lemma encode_keys (g : list (string * term_data)) :
  ((λ kv, (Raw.PStr kv.1, Raw.encode_term_data kv.2)) <$> g).*1 =
  Raw.PStr <$> keys g.
Proof. induction g as [|kv g IH]; [done|]. cbn. by f_equal. Qed.

(** Loading the encoding of a corpus [g], from any state, stores [g] with
    the indexes of the typed builder: the store is [loaded g]. *)
Lemma load_glossary_encode g s :
  Raw.load_glossary (Raw.Parsed (Raw.encode g)) s =
    (Returned (),
     {| Raw.glossary := Raw.encode g;
        Raw.normalized_terms := normalized_terms (loaded g);
        Raw.all_searchable_terms := all_searchable_terms (loaded g);
        Raw.printed := Raw.printed s ++ [Raw.MsgLoaded (length g)] |}).
Proof.
  unfold Raw.load_glossary, Raw.try_except, Raw.load_try.
  unfold mbind at 1, Raw.M_bind at 1, Raw.set_glossary at 1.
  unfold mbind at 1, Raw.M_bind at 1, Raw.build_search_indexes at 1.
  unfold mbind at 1, Raw.M_bind at 1, Raw.reset_indexes at 1.
  unfold mbind at 1, Raw.M_bind at 1, Raw.get_glossary at 1. simpl.
  unfold mbind at 1, Raw.M_bind at 1, Raw.lift at 1. simpl.
  rewrite encode_keys, (for_each_terms g); [|done|done]. simpl.
  by rewrite length_fmap.
Qed.

Lemma init_encode_holds g :
  holds (Raw.init (Raw.Parsed (Raw.encode g))).2 (loaded g).
Proof. unfold Raw.init. by rewrite load_glossary_encode. Qed.

(** C3, at a reload.  The store holds the scenario corpus after a first
    load; the source is then missing at the next [load_glossary].  The call
    returns normally and prints that the file was not found, but the term
    table and both indexes keep the old corpus: the store is not empty.
    (When the [try] block raises the store is cleared, see
    [load_glossary_raise_resets], and at construction a missing source
    leaves it empty, see [init_failure_empty].) *)
Theorem load_glossary_missing_keeps_store :
  let s := (Raw.init (Raw.Parsed (Raw.encode http_corpus))).2 in
  let s' := (Raw.load_glossary Raw.Missing s).2 in
  holds s (loaded http_corpus) ∧
  (Raw.load_glossary Raw.Missing s).1 = Returned () ∧
  holds s' (loaded http_corpus) ∧
  Raw.all_searchable_terms s' = ["HTTP"; "web protocol"] ∧
  Raw.printed s' = [Raw.MsgLoaded 1; Raw.MsgNotFound] ∧
  ¬ Raw.store_empty s'.
Proof.
  cbv zeta. rewrite load_glossary_missing. unfold Raw.init.
  rewrite load_glossary_encode. cbn [fst snd].
  split; [done|]. split; [done|]. split; [done|].
  split; [by vm_compute|]. split; [done|].
  intros (Hg & _). discriminate Hg.
Qed.

(** ** Loading: malformed values and reloads *)

Lemma bind_glossary {A B} (c : Raw.M A) (f : A → Raw.M B) s :
  (∀ s, Raw.glossary (c s).2 = Raw.glossary s) →
  (∀ a s, Raw.glossary (f a s).2 = Raw.glossary s) →
  Raw.glossary ((c ≫= f) s).2 = Raw.glossary s.
Proof.
  intros Hc Hf. unfold mbind, Raw.M_bind. specialize (Hc s).
  destruct (c s) as [[a|] s']; simpl in *; [|done]. by rewrite Hf.
Qed.

Lemma for_each_glossary {A} (l : list A) (body : A → Raw.M unit) s :
  (∀ x s, Raw.glossary (body x s).2 = Raw.glossary s) →
  Raw.glossary (Raw.for_each l body s).2 = Raw.glossary s.
Proof.
  intros Hbody. revert s. induction l as [|x l IH]; intros s; [done|].
  simpl. apply bind_glossary; [apply Hbody|]. intros _. apply IH.
Qed.

Lemma index_see_also_glossary owner d s :
  Raw.glossary (Raw.index_see_also owner d s).2 = Raw.glossary s.
Proof.
  unfold Raw.index_see_also. destruct (Raw.dict_has d "see_also"); [|done].
  apply bind_glossary; [done|]. intros sa s1.
  apply bind_glossary; [done|]. intros names s2.
  apply for_each_glossary. intros x s3.
  apply bind_glossary; [done|]. done.
Qed.

(** The loop body never touches the corpus. *)
Lemma index_term_glossary t s :
  Raw.glossary (Raw.index_term t s).2 = Raw.glossary s.
Proof.
  unfold Raw.index_term.
  apply bind_glossary; [done|]. intros n s1.
  apply bind_glossary; [done|]. intros _ s2.
  apply bind_glossary; [done|]. intros g s3.
  apply bind_glossary; [done|]. intros td s4.
  apply bind_glossary; [done|]. intros defs s5.
  apply bind_glossary; [done|]. intros ds s6.
  apply for_each_glossary. intros d s7. apply index_see_also_glossary.
Qed.

(** A key that is not a string, or whose data is not a mapping, makes the
    loop body raise. *)
Lemma index_term_bad d k s :
  Raw.glossary s = Raw.PDict d →
  is_str k = false ∨ (∃ v, Raw.assoc d k = Some v ∧ is_dict v = false) →
  (Raw.index_term k s).1 = Raised.
Proof.
  intros Hg Hbad. unfold Raw.index_term.
  destruct k as [| | |t| |]; try done.
  destruct Hbad as [Hstr|(v & Hv & Hdict)]; [done|].
  unfold mbind at 1, Raw.M_bind at 1, Raw.lift at 1. simpl.
  unfold mbind at 1, Raw.M_bind at 1, Raw.index_write at 1. simpl.
  unfold mbind at 1, Raw.M_bind at 1, Raw.get_glossary at 1. simpl.
  rewrite Hg.
  unfold mbind at 1, Raw.M_bind at 1, Raw.lift at 1, Raw.py_getitem.
  rewrite Hv.
  unfold mbind at 1, Raw.M_bind at 1, Raw.lift at 1.
  by destruct v.
Qed.

Lemma for_each_index_term_bad d ks k s :
  Raw.glossary s = Raw.PDict d → k ∈ ks →
  is_str k = false ∨ (∃ v, Raw.assoc d k = Some v ∧ is_dict v = false) →
  (Raw.for_each ks Raw.index_term s).1 = Raised.
Proof.
  intros Hg Hin Hbad. revert s Hg.
  induction ks as [|x ks IH]; intros s Hg; [by apply elem_of_nil in Hin|].
  simpl. unfold mbind, Raw.M_bind.
  pose proof (index_term_glossary x s) as Hx.
  destruct (Raw.index_term x s) as [[[]|] s'] eqn:Hrun; [|done].
  apply elem_of_cons in Hin as [->|Hin].
  - pose proof (index_term_bad d x s Hg Hbad) as Hr. by rewrite Hrun in Hr.
  - apply IH; [done|]. simpl in Hx. by rewrite Hx.
Qed.

(** X1.  Loading a well-formed corpus, from any state of the manager,
    leaves exactly that corpus with the indexes built from it alone:
    nothing of the previous table or indexes survives a reload. *)
Theorem reload_replaces_store g s :
  holds (Raw.load_glossary (Raw.Parsed (Raw.encode g)) s).2 (loaded g) ∧
  (Raw.load_glossary (Raw.Parsed (Raw.encode g)) s).1 = Returned () ∧
  Raw.printed (Raw.load_glossary (Raw.Parsed (Raw.encode g)) s).2 =
    Raw.printed s ++ [Raw.MsgLoaded (length g)].
Proof. by rewrite load_glossary_encode. Qed.

(** X2.  A source that parses to anything but a mapping (an empty file
    gives [None]) empties the store, whatever it held, and prints the
    error. *)
Theorem load_non_mapping_resets y s :
  is_dict y = false →
  Raw.load_glossary (Raw.Parsed y) s =
    (Returned (),
     {| Raw.glossary := Raw.PDict []; Raw.normalized_terms := ∅;
        Raw.all_searchable_terms := [];
        Raw.printed := Raw.printed s ++ [Raw.MsgError] |}).
Proof. by destruct y. Qed.

Lemma load_non_mapping_resets_witness :
  is_dict Raw.PNone = false ∧
  Raw.store_empty
    (Raw.load_glossary (Raw.Parsed Raw.PNone)
       (Raw.init (Raw.Parsed (Raw.encode http_corpus))).2).2.
Proof.
  assert (is_dict Raw.PNone = false) as Hnd by reflexivity.
  split; [exact Hnd|].
  rewrite (load_non_mapping_resets Raw.PNone
             (Raw.init (Raw.Parsed (Raw.encode http_corpus))).2 Hnd).
  by repeat split.
Defined.

(** X3.  One bad entry fails the whole load: if any key of the mapping is
    not a string, or the data of any key is not a mapping, the store ends
    empty (also of the entries indexed before the bad one), the call
    returns normally and the last thing printed is the error. *)
Theorem load_bad_entry_resets d k s :
  k ∈ d.*1 →
  is_str k = false ∨ (∃ v, Raw.assoc d k = Some v ∧ is_dict v = false) →
  Raw.store_empty (Raw.load_glossary (Raw.Parsed (Raw.PDict d)) s).2 ∧
  (Raw.load_glossary (Raw.Parsed (Raw.PDict d)) s).1 = Returned () ∧
  last (Raw.printed (Raw.load_glossary (Raw.Parsed (Raw.PDict d)) s).2) =
    Some Raw.MsgError.
Proof.
  intros Hk Hbad.
  assert ((Raw.load_try (Raw.Parsed (Raw.PDict d)) s).1 = Raised) as Hraise.
  { unfold Raw.load_try.
    unfold mbind at 1, Raw.M_bind at 1, Raw.set_glossary at 1.
    unfold mbind at 1, Raw.M_bind at 1, Raw.build_search_indexes at 1.
    unfold mbind at 1, Raw.M_bind at 1, Raw.reset_indexes at 1.
    unfold mbind at 1, Raw.M_bind at 1, Raw.get_glossary at 1. simpl.
    unfold mbind at 1, Raw.M_bind at 1, Raw.lift at 1. simpl.
    match goal with
    | |- context [Raw.for_each ?ks Raw.index_term ?s0] =>
        pose proof (for_each_index_term_bad d ks k s0 eq_refl Hk Hbad) as Hr;
        destruct (Raw.for_each ks Raw.index_term s0) as [[[]|] s']
    end; done. }
  rewrite load_glossary_raise_resets by done. simpl.
  split; [done|]. split; [done|]. apply last_snoc.
Qed.

Lemma load_bad_entry_resets_witness :
  Raw.PStr "HTTP" ∈ [(Raw.PStr "HTTP", Raw.PNone)].*1 ∧
  Raw.store_empty
    (Raw.load_glossary (Raw.Parsed (Raw.PDict [(Raw.PStr "HTTP", Raw.PNone)]))
       (Raw.init (Raw.Parsed (Raw.encode http_corpus))).2).2.
Proof.
  assert (Raw.PStr "HTTP" ∈ [(Raw.PStr "HTTP", Raw.PNone)].*1) as Hk by (by left).
  split; [exact Hk|].
  exact (proj1 (load_bad_entry_resets [(Raw.PStr "HTTP", Raw.PNone)]
                  (Raw.PStr "HTTP")
                  (Raw.init (Raw.Parsed (Raw.encode http_corpus))).2 Hk
                  (or_intror (ex_intro _ Raw.PNone (conj eq_refl eq_refl))))).
Defined.

(** ** The two indexes of a loaded store *)

Lemma index_dom (es : list (string * string)) ix :
  dom (foldl (λ ix e, index_add e.1 e.2 ix) ix es).1 =
  dom ix.1 ∪ list_to_set (lower <$> es.*1).
Proof.
  revert ix. induction es as [|e es IH]; intros ix; simpl.
  - by rewrite (right_id_L ∅ (∪)).
  - rewrite IH. simpl. rewrite dom_insert_L.
    rewrite (comm_L (∪) {[lower e.1]} (dom ix.1)). by rewrite (assoc_L (∪)).
Qed.

Lemma elem_of_loaded_searchable g name :
  name ∈ all_searchable_terms (loaded g) ↔ ∃ o, (name, o) ∈ index_entries g.
Proof.
  rewrite loaded_searchable, list_elem_of_fmap. split.
  - intros ([n o] & -> & Hin). by exists o.
  - intros (o & Hin). by exists (name, o).
Qed.

(** Every searchable name, in any casing, resolves to a key of the table. *)
Lemma loaded_resolves g name name' :
  name ∈ all_searchable_terms (loaded g) → casing_of name' name →
  term_exists (loaded g) (get_original_term (loaded g) name') = true.
Proof.
  intros (o & Hin)%elem_of_loaded_searchable Hcase.
  destruct (loaded_lookup_is_Some g name name' o Hin Hcase) as (o' & Ho' & Hkey).
  unfold get_original_term, term_exists. rewrite Ho'. simpl.
  by apply bool_decide_eq_true_2.
Qed.

(** X4.  In a loaded store the two indexes agree with each other and with
    the table: the keys of the normalized map are the lowercase forms of
    the searchable names, its values are keys of the table, and every key
    of the table is a searchable name with an entry for its lowercase
    form. *)
Theorem loaded_indexes_consistent g :
  dom (normalized_terms (loaded g)) =
    list_to_set (lower <$> all_searchable_terms (loaded g)) ∧
  map_Forall (λ _ o, o ∈ keys g) (normalized_terms (loaded g)) ∧
  Forall (λ t, t ∈ all_searchable_terms (loaded g) ∧
               is_Some (normalized_terms (loaded g) !! lower t)) (keys g).
Proof.
  split; [|split].
  - rewrite loaded_searchable. simpl.
    rewrite build_search_indexes_entries, index_dom. simpl.
    rewrite dom_empty_L. by rewrite (left_id_L ∅ (∪)).
  - intros k o. apply loaded_lookup_key.
  - apply Forall_forall. intros t Ht.
    pose proof (index_entries_key g t Ht) as Hin. split.
    + apply elem_of_loaded_searchable. by exists t.
    + destruct (loaded_lookup_is_Some g t t t Hin eq_refl) as (o & -> & _).
      done.
Qed.

(** X5.  In a loaded store [get_original_term] maps every searchable name,
    written in any casing, to a term for which [term_exists] holds. *)
Theorem searchable_names_resolve g :
  Forall (λ name, ∀ name', casing_of name' name →
            term_exists (loaded g) (get_original_term (loaded g) name') = true)
         (all_searchable_terms (loaded g)).
Proof. apply Forall_forall. intros name Hin name'. by apply loaded_resolves. Qed.

(** X6.  Every cross-reference a term object of a loaded term displays can
    be looked up: in any casing, [lookup] answers it with exactly one exact
    result for a key of the table. *)
Theorem displayed_see_also_resolves (WRatio : string → string → Q) g T S S' :
  T ∈ keys g →
  S ∈ (gt_definitions (get_term_object (loaded g) T) ≫= see_also) →
  casing_of S' S →
  ∃ o, o ∈ keys g ∧ lookup WRatio (loaded g) S' = [exact_result (loaded g) o].
Proof.
  intros HT HS Hcase. rewrite see_also_of_definitions in HS.
  pose proof (index_entries_see_also g T S HT HS) as Hin.
  destruct (loaded_lookup_is_Some g S S' T Hin Hcase) as (o & Ho & Hkey).
  exists o. split; [done|]. unfold lookup. by rewrite Ho.
Qed.

Lemma displayed_see_also_resolves_witness :
  "HTTP" ∈ keys xref_corpus ∧
  "TCP" ∈ (gt_definitions (get_term_object (loaded xref_corpus) "HTTP") ≫= see_also) ∧
  casing_of "tcp" "TCP" ∧
  ∃ o, o ∈ keys xref_corpus ∧
       lookup sample_ratio (loaded xref_corpus) "tcp" =
         [exact_result (loaded xref_corpus) o].
Proof.
  assert ("HTTP" ∈ keys xref_corpus) as Hkey by (vm_compute; by left).
  assert ("TCP" ∈ (gt_definitions (get_term_object (loaded xref_corpus) "HTTP")
                     ≫= see_also)) as Hsa by (vm_compute; by left).
  assert (casing_of "tcp" "TCP") as Hcase by reflexivity.
  split; [exact Hkey|]. split; [exact Hsa|]. split; [exact Hcase|].
  exact (displayed_see_also_resolves sample_ratio xref_corpus "HTTP" "TCP" "tcp"
           Hkey Hsa Hcase).
Defined.

(** ** Filtering and sorting *)

Section SortFilter.
Context {A : Type} (leb : A → A → bool).
Hypothesis leb_total : ∀ x y, leb x y = true ∨ leb y x = true.
Hypothesis leb_trans : ∀ x y z, leb x y = true → leb y z = true → leb x z = true.
Context (P : A → Prop) `{∀ x, Decision (P x)}.

Lemma sort_insert_front x l :
  Forall (λ z, leb x z = true) l → sort_insert leb x l = x :: l.
Proof. destruct 1 as [|z l Hz _]; simpl; [done|]. by rewrite Hz. Qed.

Lemma sort_insert_filter_comm x l :
  StronglySorted (λ a b, leb a b = true) l →
  filter P (sort_insert leb x l) =
  if decide (P x) then sort_insert leb x (filter P l) else filter P l.
Proof.
  induction 1 as [|y l Hs IH Hall]; simpl.
  - rewrite filter_cons. by destruct (decide (P x)).
  - destruct (leb x y) eqn:Hxy.
    + rewrite filter_cons. destruct (decide (P x)); [|done].
      rewrite sort_insert_front; [done|].
      apply Forall_forall. intros z [_ Hz]%list_elem_of_filter.
      apply elem_of_cons in Hz as [->|Hz]; [done|].
      rewrite Forall_forall in Hall. by apply leb_trans with y, Hall.
    + rewrite !filter_cons, IH.
      destruct (decide (P y)), (decide (P x)); simpl; try done.
      by rewrite Hxy.
Qed.

(** Filtering commutes with the stable sort. *)
Lemma py_sort_filter_comm l :
  filter P (py_sort leb l) = py_sort leb (filter P l).
Proof.
  assert (Transitive (λ a b, leb a b = true)) by (intros ???; apply leb_trans).
  induction l as [|x l IH]; simpl; [done|].
  rewrite sort_insert_filter_comm.
  - rewrite filter_cons, IH. by destruct (decide (P x)).
  - apply Sorted_StronglySorted; [done|]. by apply py_sort_sorted.
Qed.
End SortFilter.

Lemma filter_none {A} (P : A → Prop) `{∀ x, Decision (P x)} (l : list A) :
  Forall (λ x, ¬ P x) l → filter P l = [].
Proof.
  induction 1 as [|x l Hx _ IH]; [done|]. by rewrite filter_cons_False.
Qed.

Lemma take_prefix {A} n (l1 l2 : list A) :
  l1 `prefix_of` l2 → take n l1 `prefix_of` take n l2.
Proof.
  intros [k ->]. rewrite take_app. by apply prefix_app_r.
Qed.

(** ** Fuzzy search: results, thresholds and the limit *)

Lemma by_score_desc_total a b :
  by_score_desc a b = true ∨ by_score_desc b a = true.
Proof.
  unfold by_score_desc. rewrite !Qle_bool_iff.
  destruct (Qlt_le_dec a.1.2 b.1.2) as [?%Qlt_le_weak|?]; auto.
Qed.

Lemma by_score_desc_trans a b c :
  by_score_desc a b = true → by_score_desc b c = true →
  by_score_desc a c = true.
Proof.
  unfold by_score_desc. rewrite !Qle_bool_iff. intros Hab Hbc.
  by apply Qle_trans with b.1.2.
Qed.

(** In a list by descending score, the matches reaching a cutoff come
    first. *)
Lemma cutoff_prefix (c : Q) (l : list (string * Q * nat)) :
  StronglySorted (λ a b, by_score_desc a b = true) l →
  filter (λ mt, Qle_bool c mt.1.2 = true) l `prefix_of` l.
Proof.
  induction 1 as [|y l Hs IH Hall]; [done|].
  rewrite filter_cons. destruct (decide (Qle_bool c y.1.2 = true)) as [Hy|Hy].
  - by apply prefix_cons.
  - assert (filter (λ mt, Qle_bool c mt.1.2 = true) l = []) as ->;
      [|apply prefix_nil].
    apply filter_none. eapply Forall_impl; [exact Hall|].
    intros z Hyz Hz. apply Hy. unfold by_score_desc in Hyz.
    apply Qle_bool_iff in Hyz, Hz. apply Qle_bool_iff.
    by apply Qle_trans with z.1.2.
Qed.

(** A higher cutoff keeps a prefix of the extracted matches. *)
Lemma extract_cutoff_prefix (WRatio : string → string → Q)
    query choices limit (c1 c2 : Q) :
  (c1 <= c2)%Q →
  extract WRatio query choices limit c2 `prefix_of`
  extract WRatio query choices limit c1.
Proof.
  intros Hc. unfold extract, top. apply take_prefix.
  set (scored := imap _ choices).
  rewrite <- (list_filter_filter_l (λ mt, Qle_bool c2 mt.1.2 = true)
                (λ mt, Qle_bool c1 mt.1.2 = true) scored).
  - rewrite <- (py_sort_filter_comm by_score_desc by_score_desc_total
                  by_score_desc_trans).
    apply cutoff_prefix.
    assert (Transitive (λ a b : string * Q * nat, by_score_desc a b = true))
      by (intros a b c; apply by_score_desc_trans).
    apply Sorted_StronglySorted; [done|].
    apply py_sort_sorted, by_score_desc_total.
  - intros mt H2%Qle_bool_iff. apply Qle_bool_iff.
    by apply Qle_trans with c2.
Qed.

Lemma fresh_results_prefix m seen (l1 l2 : list (string * Q * nat)) :
  l1 `prefix_of` l2 →
  fresh_results m seen l1 `prefix_of` fresh_results m seen l2.
Proof.
  intros [k ->]. revert seen.
  induction l1 as [|mt l1 IH]; intros seen; simpl; [apply prefix_nil|].
  destruct (decide (match_term m mt ∈ seen)); [apply IH|].
  apply prefix_app, IH.
Qed.

(** X7.  Raising the threshold truncates the result list: the results of
    [FuzzySearch.search] at a higher threshold are the leading results of
    the search at a lower one, in the same order and with the same
    confidences. *)
Theorem search_threshold_prefix (WRatio : string → string → Q) m query
    (t1 t2 : Z) :
  (t1 ≤ t2)%Z →
  search WRatio m query t2 `prefix_of` search WRatio m query t1.
Proof.
  intros Ht. rewrite !search_eq_search_results, !search_results_fresh.
  apply fresh_results_prefix. unfold search_matches.
  apply extract_cutoff_prefix. by rewrite <- Zle_Qle.
Qed.

Lemma search_threshold_prefix_witness :
  (60 ≤ 90)%Z ∧
  search sample_ratio (loaded web_corpus) "hypertext" 90 `prefix_of`
    search sample_ratio (loaded web_corpus) "hypertext" 60.
Proof.
  assert (60 ≤ 90)%Z as Ht by lia.
  split; [exact Ht|].
  exact (search_threshold_prefix sample_ratio (loaded web_corpus) "hypertext"
           60 90 Ht).
Defined.

Lemma elem_of_search_inv (WRatio : string → string → Q) m query threshold r :
  r ∈ search WRatio m query threshold →
  ∃ mt, mt ∈ search_matches WRatio m query threshold ∧
        r = fuzzy_result m (match_term m mt) mt.1.2 ∧
        term_exists m (match_term m mt) = true.
Proof.
  rewrite search_unfold, search_results_fresh. intros Hr%py_sort_elem_of.
  apply fresh_results_first in Hr as (l1 & mt & l2 & Hms & -> & Hex & _).
  exists mt. split; [|done]. rewrite Hms. apply elem_of_app. right. by left.
Qed.

Lemma elem_of_search_matches (WRatio : string → string → Q) m query threshold mt :
  mt ∈ search_matches WRatio m query threshold →
  mt.1.1 ∈ all_searchable_terms m ∧ mt.1.2 = WRatio query mt.1.1 ∧
  (inject_Z threshold <= mt.1.2)%Q.
Proof.
  intros (Hi & Hs & Hc)%extract_elem. split; [|done].
  apply list_elem_of_lookup. by exists mt.2.
Qed.

(** X8.  Whatever the state of the indexes, [FuzzySearch.search] only
    returns terms that are keys of the table, each with the definitions
    [get_term_object] gives for it. *)
Theorem search_results_exist (WRatio : string → string → Q) m query threshold :
  Forall (λ r, term_exists m (term r) = true ∧
               definitions r = gt_definitions (get_term_object m (term r)))
         (search WRatio m query threshold).
Proof.
  apply Forall_forall. intros r (mt & _ & -> & Hex)%elem_of_search_inv.
  by split.
Qed.

Lemma scored_names (WRatio : string → string → Q) query (c : Q)
    (f : nat → string → string * Q * nat) (l : list string) :
  (∀ i n, (f i n).1 = (n, WRatio query n)) →
  (λ mt : string * Q * nat, mt.1.1) <$>
    filter (λ mt : string * Q * nat, Qle_bool c mt.1.2 = true) (imap f l) =
  filter (λ n, Qle_bool c (WRatio query n) = true) l.
Proof.
  revert f. induction l as [|n l IH]; intros f Hf; [done|].
  cbn [imap]. rewrite !filter_cons, Hf. simpl.
  assert (∀ i n', ((f ∘ S) i n').1 = (n', WRatio query n')) as Hf'
    by (intros i n'; apply Hf).
  destruct (decide (Qle_bool c (WRatio query n) = true));
    rewrite ?fmap_cons, (IH _ Hf'), ?Hf; done.
Qed.

(** When at most [limit] names reach the cutoff, [extract] returns all of
    them. *)
Lemma extract_all (WRatio : string → string → Q) query choices limit (c : Q) name :
  length (filter (λ n, Qle_bool c (WRatio query n) = true) choices) ≤ limit →
  name ∈ choices → Qle_bool c (WRatio query name) = true →
  ∃ i, (name, WRatio query name, i) ∈ extract WRatio query choices limit c.
Proof.
  intros Hlen Hin Hc. unfold extract, top.
  apply list_elem_of_lookup in Hin as [i Hi]. exists i.
  rewrite take_ge.
  - apply py_sort_elem_of, list_elem_of_filter. split; [done|].
    by apply (elem_of_lookup_imap_2 (λ i n, (n, WRatio query n, i))).
  - rewrite py_sort_length.
    rewrite <- (scored_names WRatio query c (λ i n, (n, WRatio query n, i))),
      length_fmap in Hlen; done.
Qed.

(** X9.  When at most 10 searchable names reach the threshold, nothing is
    cut: every such name whose canonical term is a key of the table has
    that term among the results of [FuzzySearch.search]. *)
Theorem search_complete_within_limit (WRatio : string → string → Q) m query
    threshold :
  length (passing_names WRatio m query threshold) ≤ 10 →
  Forall (λ name, term_exists m (get_original_term m name) = true →
                  get_original_term m name ∈
                    term <$> search WRatio m query threshold)
         (passing_names WRatio m query threshold).
Proof.
  intros Hlen. apply Forall_forall.
  intros name [Hc Hin]%list_elem_of_filter Hex.
  destruct (extract_all WRatio query (all_searchable_terms m) 10
              (inject_Z threshold) name Hlen Hin Hc) as [i Hi].
  rewrite search_unfold, search_results_fresh, py_sort_perm.
  apply (fresh_results_complete m ∅ _ (name, WRatio query name, i));
    [done|done|apply not_elem_of_empty].
Qed.

Lemma search_complete_within_limit_witness :
  length (passing_names sample_ratio (loaded web_corpus) "hx" 60) ≤ 10 ∧
  Forall (λ name,
            term_exists (loaded web_corpus)
              (get_original_term (loaded web_corpus) name) = true →
            get_original_term (loaded web_corpus) name ∈
              term <$> search sample_ratio (loaded web_corpus) "hx" 60)
         (passing_names sample_ratio (loaded web_corpus) "hx" 60).
Proof.
  assert (length (passing_names sample_ratio (loaded web_corpus) "hx" 60) ≤ 10)
    as Hlen by (vm_compute; lia).
  split; [exact Hlen|].
  exact (search_complete_within_limit sample_ratio (loaded web_corpus) "hx" 60
           Hlen).
Defined.

(** ** Suggestions by name *)

Lemma get_suggestions_fold m (ms : list (string * Q * nat))
    (st : list string * gset string) :
  (foldl (λ (st : list string * gset string) (mt : string * Q * nat),
            let original_term := get_original_term m mt.1.1 in
            if decide (original_term ∈ st.2) then st
            else (st.1 ++ [original_term], {[original_term]} ∪ st.2))
         st ms).1 = st.1 ++ fresh_terms m st.2 ms.
Proof.
  revert st. induction ms as [|mt ms IH]; intros [l seen]; simpl.
  - by rewrite app_nil_r.
  - rewrite IH. unfold match_term. simpl.
    destruct (decide (get_original_term m mt.1.1 ∈ seen)); [done|].
    simpl. by rewrite <- app_assoc.
Qed.

Lemma get_suggestions_unfold (WRatio : string → string → Q) m query threshold n :
  get_suggestions WRatio m query threshold n =
  fresh_terms m ∅
    (extract WRatio query (all_searchable_terms m) n (inject_Z threshold)).
Proof.
  unfold get_suggestions. destruct (all_searchable_terms m) eqn:Hall.
  - unfold extract, top. simpl. by rewrite take_nil.
  - by rewrite get_suggestions_fold.
Qed.

Lemma fresh_terms_elem m seen ms o :
  o ∈ fresh_terms m seen ms → (o ∉ seen) ∧ ∃ mt, mt ∈ ms ∧ o = match_term m mt.
Proof.
  revert seen. induction ms as [|mt ms IH]; intros seen; simpl.
  - by intros ?%elem_of_nil.
  - destruct (decide (match_term m mt ∈ seen)) as [Hin|Hnin].
    + intros (Hs & mt' & Hmt' & ->)%IH. split; [done|].
      exists mt'. split; [by right|done].
    + intros [->|Ho]%elem_of_cons.
      * split; [done|]. exists mt. split; [by left|done].
      * apply IH in Ho as (Hs & mt' & Hmt' & ->).
        apply not_elem_of_union in Hs as [_ Hs]. split; [done|].
        exists mt'. split; [by right|done].
Qed.

Lemma fresh_terms_NoDup m seen ms : NoDup (fresh_terms m seen ms).
Proof.
  revert seen. induction ms as [|mt ms IH]; intros seen; simpl; [constructor|].
  destruct (decide (match_term m mt ∈ seen)); [apply IH|].
  constructor; [|apply IH].
  intros (Hs & _)%fresh_terms_elem. apply Hs, elem_of_union. left.
  by apply elem_of_singleton.
Qed.

Lemma fresh_terms_length m seen ms : length (fresh_terms m seen ms) ≤ length ms.
Proof.
  revert seen. induction ms as [|mt ms IH]; intros seen; simpl; [done|].
  destruct (decide (match_term m mt ∈ seen)).
  - specialize (IH seen). lia.
  - specialize (IH ({[match_term m mt]} ∪ seen)). simpl. lia.
Qed.

(** The terms of the fuzzy results are the suggested names that are keys
    of the table. *)
Lemma fresh_results_terms m seen ms :
  term <$> fresh_results m seen ms =
  filter (λ o, term_exists m o = true) (fresh_terms m seen ms).
Proof.
  revert seen. induction ms as [|mt ms IH]; intros seen; simpl; [done|].
  destruct (decide (match_term m mt ∈ seen)); [apply IH|].
  rewrite fmap_app, filter_cons, IH.
  by destruct (term_exists m (match_term m mt)).
Qed.

(** X10.  [get_suggestions] returns at most [max_suggestions] names, without
    repetition, and each of them is the canonical term of a searchable name
    whose score reaches the threshold. *)
Theorem get_suggestions_sound (WRatio : string → string → Q) m query threshold n :
  NoDup (get_suggestions WRatio m query threshold n) ∧
  length (get_suggestions WRatio m query threshold n) ≤ n ∧
  Forall (λ o, ∃ name, name ∈ all_searchable_terms m ∧
                       o = get_original_term m name ∧
                       (inject_Z threshold <= WRatio query name)%Q)
         (get_suggestions WRatio m query threshold n).
Proof.
  rewrite get_suggestions_unfold. split; [apply fresh_terms_NoDup|split].
  - etrans; [apply fresh_terms_length|apply extract_length].
  - apply Forall_forall. intros o (_ & mt & Hmt & ->)%fresh_terms_elem.
    apply extract_elem in Hmt as (Hi & Hs & Hc).
    exists mt.1.1. split; [|split; [done|by rewrite <- Hs]].
    apply list_elem_of_lookup. by exists mt.2.
Qed.

(** X11.  The fuzzy search and the suggestions agree: the terms of
    [FuzzySearch.search] are, in order, the names [get_suggestions] returns
    with [max_suggestions = 10] that are keys of the table; on a loaded
    store the two lists of terms are equal. *)
Theorem search_terms_are_suggestions (WRatio : string → string → Q) query threshold :
  (∀ m, term <$> search WRatio m query threshold =
        filter (λ o, term_exists m o = true)
               (get_suggestions WRatio m query threshold 10)) ∧
  (∀ g, term <$> search WRatio (loaded g) query threshold =
        get_suggestions WRatio (loaded g) query threshold 10).
Proof.
  assert (∀ m, term <$> search WRatio m query threshold =
        filter (λ o, term_exists m o = true)
               (get_suggestions WRatio m query threshold 10)) as Hgen.
  { intros m. rewrite search_eq_search_results, search_results_fresh,
      get_suggestions_unfold. apply fresh_results_terms. }
  split; [done|]. intros g. rewrite Hgen.
  rewrite get_suggestions_unfold.
  set (ms := extract _ _ _ _ _).
  assert (Forall (λ o, term_exists (loaded g) o = true)
                 (fresh_terms (loaded g) ∅ ms)) as Hall.
  { apply Forall_forall. intros o (_ & mt & Hmt & ->)%fresh_terms_elem.
    apply extract_elem in Hmt as (Hi & _).
    apply (loaded_resolves g mt.1.1); [|done].
    apply list_elem_of_lookup. by exists mt.2. }
  induction Hall as [|o l Ho _ IH]; [done|].
  by rewrite filter_cons_True, IH.
Qed.

(** ** The shape of a lookup *)

(** X12.  [lookup] returns at most 3 results.  It reports an exact match
    exactly when the lowercase input is in the normalized map; each result
    is then either the exact one, with confidence 1.0 for the mapped term,
    or, on a miss, a suggestion for a key of the table with confidence at
    least 0.6. *)
Theorem lookup_shape (WRatio : string → string → Q) m t :
  length (lookup WRatio m t) ≤ 3 ∧
  (reports_exact (lookup WRatio m t) = true ↔
     is_Some (normalized_terms m !! lower t)) ∧
  Forall (λ r,
            (match_type r = "exact" ∧ confidence r = 1%Q ∧
             normalized_terms m !! lower t = Some (term r)) ∨
            (match_type r = "suggestion" ∧
             normalized_terms m !! lower t = None ∧
             term_exists m (term r) = true ∧
             (inject_Z 60 / 100 <= confidence r)%Q))
         (lookup WRatio m t).
Proof.
  unfold lookup. destruct (normalized_terms m !! lower t) as [o|] eqn:Hl.
  - split; [simpl; lia|]. split; [done|].
    apply Forall_singleton. by left.
  - split; [|split].
    + rewrite length_fmap. unfold top. rewrite length_take. lia.
    + split; [|by intros [? ?]].
      by destruct (top 3 (search WRatio m t 60)).
    + apply Forall_forall. intros r (r' & -> & Hr')%list_elem_of_fmap.
      right. apply (subseteq_take 3) in Hr'.
      apply elem_of_search_inv in Hr' as (mt & Hmt & -> & Hex).
      apply elem_of_search_matches in Hmt as (_ & _ & Hc).
      repeat split; try done. simpl.
      apply Qmult_le_compat_r; [done|discriminate].
Qed.

(** X13.  On a loaded store every result of [lookup], exact or suggested,
    is for a key of the table and carries the definitions
    [get_term_object] gives for that key. *)
Theorem lookup_terms_in_table (WRatio : string → string → Q) g t :
  Forall (λ r, term r ∈ keys g ∧
               definitions r =
                 gt_definitions (get_term_object (loaded g) (term r)))
         (lookup WRatio (loaded g) t).
Proof.
  unfold lookup.
  destruct (normalized_terms (loaded g) !! lower t) as [o|] eqn:Hl.
  - apply Forall_singleton. split; [|done]. by eapply loaded_lookup_key.
  - apply Forall_forall. intros r (r' & -> & Hr')%list_elem_of_fmap.
    apply (subseteq_take 3) in Hr'.
    apply elem_of_search_inv in Hr' as (mt & _ & -> & Hex).
    split; [|done]. simpl. unfold term_exists in Hex.
    by apply bool_decide_eq_true in Hex.
Qed.

(** X14.  After a load whose [try] block raised, the manager holds the
    empty store, and the empty store answers every query with an empty
    list: exact lookup, fuzzy search, suggestions, the agentic fallback and
    the listing of terms. *)
Theorem failed_load_answers_nothing (WRatio : string → string → Q) src s :
  (Raw.load_try src s).1 = Raised →
  holds (Raw.load_glossary src s).2 empty_manager ∧
  ∀ query threshold n prefix,
    lookup WRatio empty_manager query = [] ∧
    search WRatio empty_manager query threshold = [] ∧
    get_suggestions WRatio empty_manager query threshold n = [] ∧
    agentic_fallback WRatio empty_manager query = [] ∧
    list_terms empty_manager prefix = [].
Proof.
  intros Hraise. rewrite load_glossary_raise_resets by done.
  split; [done|]. intros query threshold n prefix.
  repeat split; try done.
  unfold list_terms. simpl. destruct prefix as [p|]; [|done].
  by destruct (decide (p = "")).
Qed.

Lemma failed_load_answers_nothing_witness :
  (Raw.load_try bad_see_also_source
     (Raw.init (Raw.Parsed (Raw.encode http_corpus))).2).1 = Raised ∧
  holds (Raw.load_glossary bad_see_also_source
           (Raw.init (Raw.Parsed (Raw.encode http_corpus))).2).2 empty_manager.
Proof.
  assert ((Raw.load_try bad_see_also_source
     (Raw.init (Raw.Parsed (Raw.encode http_corpus))).2).1 = Raised) as Hraise
    by (vm_compute; reflexivity).
  split; [exact Hraise|].
  exact (proj1 (failed_load_answers_nothing sample_ratio bad_see_also_source
                  (Raw.init (Raw.Parsed (Raw.encode http_corpus))).2 Hraise)).
Defined.

(** ** Listing with and without a prefix *)

Lemma filter_all {A} (P : A → Prop) `{∀ x, Decision (P x)} (l : list A) :
  Forall P l → filter P l = l.
Proof.
  induction 1 as [|x l Hx _ IH]; [done|]. by rewrite filter_cons_True, IH.
Qed.

(** X16.  The listing with a prefix is the full listing filtered: for every
    prefix, empty or not, [list_terms(prefix)] is the sublist of
    [list_terms()] of the terms whose lowercase form is the lowercase prefix
    followed by something, in the same order. *)
Theorem list_terms_prefix_of_all m p :
  list_terms m (Some p) =
    filter (λ t, startswith (lower t) (lower p) = true) (list_terms m None) ∧
  (∀ t, t ∈ list_terms m (Some p) ↔
        t ∈ list_terms m None ∧ ∃ rest, lower t = lower p +:+ rest).
Proof.
  assert (list_terms m (Some p) =
    filter (λ t, startswith (lower t) (lower p) = true) (list_terms m None))
    as Heq.
  { unfold list_terms. destruct (decide (p = "")) as [->|Hp].
    - symmetry. apply filter_all, Forall_forall. intros t _.
      unfold startswith. simpl. by destruct (lower t).
    - symmetry. apply py_sort_filter_comm.
      + apply str_le_total.
      + apply str_le_trans. }
  split; [done|]. intros t.
  rewrite Heq, list_elem_of_filter, startswith_spec. tauto.
Qed.

(** ** The batch tool *)

Lemma reports_exact_lookup (WRatio : string → string → Q) m t :
  reports_exact (lookup WRatio m t) = true ↔
  is_Some (normalized_terms m !! lower t).
Proof.
  unfold lookup. destruct (normalized_terms m !! lower t) as [o|]; [done|].
  split; [|by intros [? ?]]. by destruct (top 3 (search WRatio m t 60)).
Qed.

Lemma batch_lookup_terms_lookup (WRatio : string → string → Q) m terms t :
  batch_lookup_terms WRatio m terms !! t =
  if decide (t ∈ terms) then Some (lookup WRatio m t) else None.
Proof.
  unfold batch_lookup_terms.
  induction terms as [|t' terms IH] using rev_ind; simpl.
  - by rewrite lookup_empty.
  - rewrite foldl_snoc, lookup_insert.
    destruct (decide (t' = t)) as [->|Hne].
    + rewrite decide_True; [done|]. apply elem_of_app. right. by left.
    + rewrite IH. apply decide_ext. rewrite elem_of_app, list_elem_of_singleton.
      split; [by left|]. intros [Ht|Ht]; [done|congruence].
Qed.

Lemma filter_ext_elem {A} (P Q : A → Prop)
    `{∀ x, Decision (P x), ∀ x, Decision (Q x)} (l : list A) :
  Forall (λ x, P x ↔ Q x) l → filter P l = filter Q l.
Proof.
  induction 1 as [|x l Hx _ IH]; [done|].
  rewrite !filter_cons, IH. apply decide_ext, Hx.
Qed.

Lemma length_filter_fmap {A B} (f : A → B) (P : B → Prop)
    `{∀ x, Decision (P x)} (l : list A) :
  length (filter (λ x, P (f x)) l) = length (filter P (f <$> l)).
Proof.
  induction l as [|x l IH]; [done|].
  rewrite fmap_cons, !filter_cons. destruct (decide (P (f x))); simpl; by rewrite IH.
Qed.

(** X17.  [batch_lookup_terms] maps exactly the distinct requested terms,
    each to the results [lookup] gives for it, so a term requested twice has
    one entry.  The number it reports as exact matches is the number of
    distinct requested terms whose lowercase form is in the normalized
    map. *)
Theorem batch_lookup_terms_spec (WRatio : string → string → Q) m terms :
  dom (batch_lookup_terms WRatio m terms) = list_to_set terms ∧
  map_Forall (λ t results, results = lookup WRatio m t)
             (batch_lookup_terms WRatio m terms) ∧
  batch_exact_matches WRatio m terms =
    length (filter (λ t, is_Some (normalized_terms m !! lower t))
                   (remove_dups terms)).
Proof.
  split; [|split].
  - apply set_eq. intros t.
    rewrite elem_of_dom, batch_lookup_terms_lookup, elem_of_list_to_set.
    destruct (decide (t ∈ terms)); split; try done.
  - intros t results. rewrite batch_lookup_terms_lookup.
    destruct (decide (t ∈ terms)); [|done]. by intros [= <-].
  - unfold batch_exact_matches.
    set (L := map_to_list (batch_lookup_terms WRatio m terms)).
    rewrite (filter_ext_elem _
               (λ kv, is_Some (normalized_terms m !! lower kv.1)) L).
    + etrans;
        [exact (length_filter_fmap fst
                  (λ t, is_Some (normalized_terms m !! lower t)) L)|].
      apply Permutation_length, filter_Permutation.
      apply NoDup_Permutation.
      * apply NoDup_fst_map_to_list.
      * apply NoDup_remove_dups.
      * intros t. rewrite elem_of_remove_dups, list_elem_of_fmap. split.
        -- intros ([t' rs] & -> & Hin). apply elem_of_map_to_list in Hin.
           rewrite batch_lookup_terms_lookup in Hin. simpl.
           by destruct (decide (t' ∈ terms)).
        -- intros Ht. exists (t, lookup WRatio m t). split; [done|].
           apply elem_of_map_to_list.
           by rewrite batch_lookup_terms_lookup, decide_True.
    + apply Forall_forall. intros [t rs] Hin. apply elem_of_map_to_list in Hin.
      rewrite batch_lookup_terms_lookup in Hin.
      destruct (decide (t ∈ terms)); [|done]. injection Hin as <-. simpl.
      apply reports_exact_lookup.
Qed.

(** ** Credentials *)

(** X18.  The two functions of [Config] split the model names the same way:
    a model gets the "Unknown model type" warning exactly when no
    configuration of credentials makes [has_api_key_for_model] true for it;
    and with all three credentials set, [main] prints a warning for those
    models only. *)
Theorem unknown_model_warning model :
  (get_missing_key_warning model = "Warning: Unknown model type: " +:+ model ↔
   ∀ cfg, has_api_key_for_model cfg model = false) ∧
  (∀ a b c,
     startup_warning
       {| OPENAI_API_KEY := Some a; GEMINI_API_KEY := Some b;
          ANTHROPIC_API_KEY := Some c |} model =
     if has_api_key_for_model
          {| OPENAI_API_KEY := Some a; GEMINI_API_KEY := Some b;
             ANTHROPIC_API_KEY := Some c |} model
     then None else Some ("Warning: Unknown model type: " +:+ model)).
Proof.
  unfold startup_warning, get_missing_key_warning, has_api_key_for_model.
  destruct (startswith model "openai:"),
           (startswith model "gemini:" || startswith model "google-gla:"),
           (startswith model "anthropic:"); simpl;
    (split; [split; [try discriminate|
                     intros Hall;
                     try discriminate
                       (Hall {| OPENAI_API_KEY := Some "";
                                GEMINI_API_KEY := Some "";
                                ANTHROPIC_API_KEY := Some "" |})]|
             done]); done.
Qed.

(** ** The untyped operations on a well-typed store *)

Lemma map_outcome_validate_str (l : list string) :
  map_outcome Untyped.validate_str (Raw.PStr <$> l) = Returned l.
Proof. induction l as [|x l IH]; [done|]. cbn. by rewrite IH. Qed.

Lemma to_definition_encode repr d :
  Untyped.to_definition repr (Raw.encode_def d) = Returned (to_definition d).
Proof.
  destruct d as [[x|] [sa|]|r]; cbn; repeat case_bool_decide; try done;
    cbn; rewrite ?map_outcome_validate_str; done.
Qed.

Lemma map_outcome_to_definition repr (ds : list def_data) :
  map_outcome (Untyped.to_definition repr) (Raw.encode_def <$> ds) =
  Returned (to_definition <$> ds).
Proof.
  induction ds as [|d ds IH]; [done|].
  cbn [fmap list_fmap map_outcome]. rewrite to_definition_encode.
  cbn. by rewrite IH.
Qed.

Lemma py_get_encode g t dflt :
  Raw.py_get (Raw.encode g) t dflt =
  Returned (default dflt (Raw.encode_term_data <$> dict_get g t)).
Proof. unfold Raw.py_get, Raw.encode. by rewrite assoc_encode. Qed.

(** On the encoding of a typed corpus [get_term_object] validates every
    definition and returns the typed term object. *)
Lemma get_term_object_typed repr s m t :
  Raw.glossary s = Raw.encode (glossary m) →
  Untyped.get_term_object repr s t = Returned (get_term_object m t).
Proof.
  intros Hg. unfold Untyped.get_term_object, get_term_object, get_term_data.
  rewrite Hg, py_get_encode.
  destruct (dict_get (glossary m) t) as [td|]; [|done].
  cbn [fmap option_fmap option_map default mbind outcome_bind id].
  rewrite py_get_definitions.
  cbn [mbind outcome_bind Raw.py_iter]. rewrite map_outcome_to_definition.
  cbn [mbind outcome_bind].
  destruct td as [[ds|] other]; cbn.
  - done.
  - by destruct (filter _ other), other.
Qed.

Lemma term_exists_typed s m t :
  Raw.glossary s = Raw.encode (glossary m) →
  Untyped.term_exists s t = Returned (term_exists m t).
Proof.
  intros Hg. unfold Untyped.term_exists, term_exists. rewrite Hg.
  unfold Raw.encode, Untyped.py_contains. rewrite assoc_encode. f_equal.
  apply bool_decide_ext. rewrite fmap_is_Some. split.
  - intros Hs. destruct (decide (t ∈ keys (glossary m))) as [|Hn]; [done|].
    rewrite (dict_get_None _ _ Hn) in Hs. by destruct Hs.
  - apply dict_get_is_Some.
Qed.

Lemma get_original_term_typed s m name :
  Raw.normalized_terms s = normalized_terms m →
  Untyped.get_original_term s name = get_original_term m name.
Proof. intros Hn. unfold Untyped.get_original_term, get_original_term. by rewrite Hn. Qed.

Lemma search_step_typed repr s m st mt :
  holds s m →
  Untyped.search_step repr s st mt = Returned (search_step m st mt).
Proof.
  intros (Hg & Hn & _). destruct mt as [[name score] i].
  unfold Untyped.search_step, search_step.
  rewrite (get_original_term_typed s m) by done.
  destruct (decide (get_original_term m name ∈ st.2)); [done|].
  rewrite (term_exists_typed s m) by done. cbn [mbind outcome_bind].
  destruct (term_exists m (get_original_term m name)); [|done].
  by rewrite (get_term_object_typed repr s m).
Qed.

Lemma fold_search_step_typed repr s m st ms :
  holds s m →
  fold_outcome (Untyped.search_step repr s) st ms =
  Returned (foldl (search_step m) st ms).
Proof.
  intros Hh. revert st. induction ms as [|mt ms IH]; intros st; [done|].
  cbn [fold_outcome foldl]. rewrite (search_step_typed repr s m) by done.
  apply IH.
Qed.

(** On a store holding a well-typed corpus the fuzzy search raises nothing
    and returns the typed result. *)
Lemma search_typed (WRatio : string → string → Q) repr s m query threshold :
  holds s m →
  Untyped.search WRatio repr s query threshold =
  Returned (search WRatio m query threshold).
Proof.
  intros Hh. pose proof Hh as (_ & _ & Ha).
  unfold Untyped.search, search, search_results, search_matches. rewrite Ha.
  destruct (all_searchable_terms m) as [|c cs]; [done|].
  by rewrite (fold_search_step_typed repr s m).
Qed.

Lemma agentic_fallback_typed (WRatio : string → string → Q) repr s m query :
  holds s m →
  Untyped.agentic_fallback WRatio repr s query =
  Returned (agentic_fallback WRatio m query).
Proof.
  intros Hh. unfold Untyped.agentic_fallback.
  by rewrite (search_typed WRatio repr s m).
Qed.

Lemma fold_text_parts_typed repr (list_of_set : list string → list string)
    s m (l : list string) (parts : list string) :
  Raw.glossary s = Raw.encode (glossary m) →
  fold_outcome (λ text_parts k,
    match k with
    | Raw.PStr t =>
        Untyped.get_term_object repr s t ≫= λ term_obj,
        let definitions_text := join "; " (text <$> gt_definitions term_obj) in
        let text_parts := text_parts ++ [t +:+ ": " +:+ definitions_text] in
        let all_see_also := gt_definitions term_obj ≫= see_also in
        Returned
          match all_see_also with
          | [] => text_parts
          | _ => text_parts ++
                   ["  (See also: " +:+ join ", " (list_of_set all_see_also) +:+ ")"]
          end
    | _ => Raised
    end) parts (Raw.PStr <$> l) =
  Returned
    (foldl (λ parts t,
      let term_obj := get_term_object m t in
      let definitions_text := join "; " (text <$> gt_definitions term_obj) in
      let parts := parts ++ [t +:+ ": " +:+ definitions_text] in
      let all_see_also := gt_definitions term_obj ≫= see_also in
      match all_see_also with
      | [] => parts
      | _ => parts ++ ["  (See also: " +:+ join ", " (list_of_set all_see_also) +:+ ")"]
      end) parts l).
Proof.
  intros Hg. revert parts. induction l as [|t l IH]; intros parts; [done|].
  cbn [fmap list_fmap fold_outcome foldl].
  rewrite (get_term_object_typed repr s m) by done.
  cbn [mbind outcome_bind]. apply IH.
Qed.

Lemma get_all_terms_text_typed repr list_of_set s m :
  holds s m →
  Untyped.get_all_terms_text repr list_of_set s =
  Returned (get_all_terms_text list_of_set m).
Proof.
  intros (Hg & _). unfold Untyped.get_all_terms_text, get_all_terms_text.
  rewrite Hg. unfold Raw.encode at 1, Raw.py_keys. rewrite encode_keys.
  cbn [mbind outcome_bind].
  by rewrite (fold_text_parts_typed repr list_of_set s m).
Qed.

Lemma responses_typed repr s m (names : list string) acc :
  holds s m →
  fold_outcome (λ responses t,
      Untyped.term_exists s t ≫= λ found,
      if found : bool then
        Untyped.get_term_object repr s t ≫= λ term_obj,
        Returned (responses ++
                    [ {| term := t;
                         definitions := gt_definitions term_obj;
                         confidence := 1;
                         match_type := "agentic" |} ])
      else Returned responses) acc names =
  Returned (acc ++
    ((λ t, {| term := t;
              definitions := gt_definitions (get_term_object m t);
              confidence := 1;
              match_type := "agentic" |})
       <$> filter (λ t, t ∈ keys (glossary m)) names)).
Proof.
  intros (Hg & _). revert acc.
  induction names as [|t names IH]; intros acc.
  - by rewrite app_nil_r.
  - cbn [fold_outcome]. rewrite (term_exists_typed s m) by done.
    cbn [mbind outcome_bind]. rewrite filter_cons. unfold term_exists.
    destruct (decide (t ∈ keys (glossary m))) as [Hin|Hnin].
    + rewrite bool_decide_eq_true_2 by done.
      rewrite (get_term_object_typed repr s m) by done.
      cbn [mbind outcome_bind]. rewrite IH, fmap_cons. by rewrite <- app_assoc.
    + rewrite bool_decide_eq_false_2 by done. apply IH.
Qed.

(** Whatever the store, the labels of what the agentic search returns. *)
Lemma responses_match_type repr s (names : list string) acc l :
  Forall (λ r, match_type r = "agentic") acc →
  fold_outcome (λ responses t,
      Untyped.term_exists s t ≫= λ found,
      if found : bool then
        Untyped.get_term_object repr s t ≫= λ term_obj,
        Returned (responses ++
                    [ {| term := t;
                         definitions := gt_definitions term_obj;
                         confidence := 1;
                         match_type := "agentic" |} ])
      else Returned responses) acc names = Returned l →
  Forall (λ r, match_type r = "agentic") l.
Proof.
  revert acc. induction names as [|t names IH]; intros acc Hacc; cbn [fold_outcome].
  - by intros [= <-].
  - destruct (Untyped.term_exists s t) as [[]|]; cbn [mbind outcome_bind];
      [|by apply IH|done].
    destruct (Untyped.get_term_object repr s t) as [obj|];
      cbn [mbind outcome_bind]; [|done].
    apply IH. apply Forall_app. split; [done|]. by apply Forall_singleton.
Qed.

Lemma agentic_search_match_type (WRatio : string → string → Q) repr list_of_set
    agent s query context l :
  Untyped.agentic_search WRatio repr list_of_set agent s query context =
    Returned l →
  Forall (λ r, match_type r = "agentic" ∨ match_type r = "agentic_fallback") l.
Proof.
  assert (∀ l, Untyped.agentic_fallback WRatio repr s query = Returned l →
               Forall (λ r, match_type r = "agentic" ∨
                            match_type r = "agentic_fallback") l) as Hfb.
  { intros l'. unfold Untyped.agentic_fallback.
    destruct (Untyped.search WRatio repr s query 60) as [rs|];
      cbn [mbind outcome_bind]; [|done].
    intros [= <-]. apply Forall_forall.
    intros r (r' & -> & _)%list_elem_of_fmap. by right. }
  unfold Untyped.agentic_search. destruct agent as [run|]; [|apply Hfb].
  unfold Untyped.agentic_try.
  destruct (Untyped.get_all_terms_text repr list_of_set s) as [txt|];
    [|apply Hfb].
  destruct (run (full_query query context) txt) as [names| |];
    [|apply Hfb|done].
  destruct (fold_outcome _ [] names) as [rs|] eqn:Hrs; [|apply Hfb].
  intros [= <-]. apply responses_match_type in Hrs; [|constructor].
  eapply Forall_impl; [exact Hrs|]. intros r Hr. by left.
Qed.

(** ** Suggestions *)

(** C7.  When the lowercase form of the input is not in the normalized
    map, [lookup] returns the first 3 results of [search] at threshold 60
    (all of them when there are fewer), relabelled "suggestion" with the
    other fields unchanged.  Every result of [lookup] is "exact" or
    "suggestion", while the fuzzy search labels its results "fuzzy" and the
    agentic search, on any store, "agentic" or "agentic_fallback". *)
Theorem lookup_miss_suggestions (WRatio : string → string → Q)
    (repr : Raw.pyval → string) (list_of_set : list string → list string) m t :
  (normalized_terms m !! lower t = None →
     lookup WRatio m t =
       set_match_type "suggestion" <$> take 3 (search WRatio m t 60) ∧
     length (lookup WRatio m t) = min 3 (length (search WRatio m t 60)) ∧
     Forall2 (λ s r, term s = term r ∧ definitions s = definitions r ∧
                     confidence s = confidence r ∧ match_type s = "suggestion")
             (lookup WRatio m t) (take 3 (search WRatio m t 60))) ∧
  (∀ r, r ∈ lookup WRatio m t →
     match_type r = "exact" ∨ match_type r = "suggestion") ∧
  (∀ query threshold r, r ∈ search WRatio m query threshold →
     match_type r = "fuzzy") ∧
  (∀ agent s query context l r,
     Untyped.agentic_search WRatio repr list_of_set agent s query context =
       Returned l →
     r ∈ l → match_type r = "agentic" ∨ match_type r = "agentic_fallback").
Proof.
  split; [|split; [|split]].
  - intros Hmiss. unfold lookup, top. rewrite Hmiss. split; [done|].
    split; [by rewrite length_fmap, length_take|]. apply relabel_fields.
  - intros r. unfold lookup.
    destruct (normalized_terms m !! lower t) as [o|].
    + intros ->%list_elem_of_singleton. by left.
    + intros (r' & -> & _)%list_elem_of_fmap. by right.
  - intros query threshold r. apply elem_of_search_match_type.
  - intros agent s query context l r Hl Hr.
    apply agentic_search_match_type in Hl. rewrite Forall_forall in Hl.
    by apply Hl.
Qed.

Lemma lookup_miss_suggestions_witness :
  normalized_terms (loaded many_corpus) !! lower "hx" = None ∧
  lookup sample_ratio (loaded many_corpus) "hx" =
    set_match_type "suggestion" <$>
      take 3 (search sample_ratio (loaded many_corpus) "hx" 60) ∧
  length (lookup sample_ratio (loaded many_corpus) "hx") =
    min 3 (length (search sample_ratio (loaded many_corpus) "hx" 60)).
Proof.
  assert (normalized_terms (loaded many_corpus) !! lower "hx" = None) as Hmiss
    by (apply loaded_lookup_None; vm_compute; repeat constructor; discriminate).
  split; [exact Hmiss|].
  pose proof (proj1 (lookup_miss_suggestions sample_ratio (λ _, "") id
                       (loaded many_corpus) "hx") Hmiss) as (H1 & H2 & _).
  split; [exact H1|exact H2].
Defined.

(** ** The agentic search *)

(** An interruption of the capability that is not an [Exception] passes
    through the [except] clause. *)
Lemma agentic_search_aborted (WRatio : string → string → Q) repr list_of_set
    run s m query context :
  holds s m →
  run (full_query query context) (get_all_terms_text list_of_set m) = Aborted →
  Untyped.agentic_search WRatio repr list_of_set (Some run) s query context =
    Raised.
Proof.
  intros Hh Hrun. unfold Untyped.agentic_search, Untyped.agentic_try.
  by rewrite (get_all_terms_text_typed repr list_of_set s m), Hrun.
Qed.

(** C8 (amended).  On a store holding a corpus of well-typed terms, when
    the capability handle is absent or its invocation raises an
    [Exception], [AgenticSearch.search] returns the first 3 results of
    [search] at threshold 60 relabelled "agentic_fallback": at most 3
    results, whose terms are terms of that fuzzy result.  On such a store
    it returns a list to its caller whenever the capability is absent,
    answers or raises an [Exception]. *)
Theorem agentic_search_fallback (WRatio : string → string → Q)
    (repr : Raw.pyval → string) (list_of_set : list string → list string)
    agent s m query context :
  holds s m →
  (agent = None ∨
   (∃ run, agent = Some run ∧
      run (full_query query context) (get_all_terms_text list_of_set m) = Failed) →
   Untyped.agentic_search WRatio repr list_of_set agent s query context =
     Returned (set_match_type "agentic_fallback" <$>
                 take 3 (search WRatio m query 60))) ∧
  (length (set_match_type "agentic_fallback" <$>
             take 3 (search WRatio m query 60)) ≤ 3 ∧
   Forall (λ r, match_type r = "agentic_fallback" ∧
                term r ∈ term <$> search WRatio m query 60)
          (set_match_type "agentic_fallback" <$>
             take 3 (search WRatio m query 60))) ∧
  ((∀ run, agent = Some run →
      run (full_query query context) (get_all_terms_text list_of_set m) ≠ Aborted) →
   ∃ l, Untyped.agentic_search WRatio repr list_of_set agent s query context =
          Returned l).
Proof.
  intros Hh.
  pose proof (agentic_fallback_typed WRatio repr s m query Hh) as Hfb.
  unfold agentic_fallback, top in Hfb.
  split; [|split].
  - intros [->|(run & -> & Hrun)]; [done|].
    unfold Untyped.agentic_search, Untyped.agentic_try.
    by rewrite (get_all_terms_text_typed repr list_of_set s m), Hrun.
  - split; [rewrite length_fmap, length_take; lia|].
    apply Forall_forall. intros r (r' & -> & Hr')%list_elem_of_fmap.
    split; [done|]. apply list_elem_of_fmap. exists r'. split; [done|].
    by apply (subseteq_take 3).
  - intros Hrun. unfold Untyped.agentic_search.
    destruct agent as [run|]; [|by eexists].
    unfold Untyped.agentic_try.
    rewrite (get_all_terms_text_typed repr list_of_set s m) by done.
    specialize (Hrun run eq_refl).
    destruct (run _ _) as [names| |]; [|by eexists|done].
    rewrite (responses_typed repr s m) by done. by eexists.
Qed.

Lemma agentic_search_fallback_witness :
  holds (Raw.init (Raw.Parsed (Raw.encode many_corpus))).2 (loaded many_corpus) ∧
  (∃ run : string → string → run_result,
     Some (λ _ _ : string, Failed) = Some run ∧
     run (full_query "hx" (Some "web"))
         (get_all_terms_text id (loaded many_corpus)) = Failed) ∧
  Untyped.agentic_search sample_ratio (λ _, "") id (Some (λ _ _, Failed))
      (Raw.init (Raw.Parsed (Raw.encode many_corpus))).2
      "hx" (Some "web") =
    Returned (set_match_type "agentic_fallback" <$>
                take 3 (search sample_ratio (loaded many_corpus) "hx" 60)).
Proof.
  pose proof (init_encode_holds many_corpus) as Hh.
  assert (∃ run : string → string → run_result,
     Some (λ _ _ : string, Failed) = Some run ∧
     run (full_query "hx" (Some "web"))
         (get_all_terms_text id (loaded many_corpus)) = Failed) as Hfail
    by (eexists; split; reflexivity).
  split; [exact Hh|]. split; [exact Hfail|].
  exact (proj1 (agentic_search_fallback sample_ratio (λ _, "") id
                  (Some (λ _ _, Failed))
                  (Raw.init (Raw.Parsed (Raw.encode many_corpus))).2
                  (loaded many_corpus) "hx" (Some "web") Hh)
               (or_intror Hfail)).
Defined.

(** C8 as stated fails on a store the loader accepts: the text of the
    definition of "HTTP" is a number, the load succeeds, and with the
    capability absent (or raising) the fallback search finds "HTTP", fails
    to build its [Definition], and the error reaches the caller. *)
Lemma agentic_search_fallback_counterexample :
  (Raw.init number_text_source).1 = Returned () ∧
  Raw.all_searchable_terms (Raw.init number_text_source).2 = ["HTTP"] ∧
  Raw.printed (Raw.init number_text_source).2 = [Raw.MsgLoaded 1] ∧
  Untyped.agentic_search sample_ratio (λ _, "") id None
    (Raw.init number_text_source).2 "HTTP" None = Raised ∧
  Untyped.agentic_search sample_ratio (λ _, "") id (Some (λ _ _, Failed))
    (Raw.init number_text_source).2 "HTTP" None = Raised.
Proof. repeat split; by vm_compute. Qed.

(** X15.  On a store holding a corpus of well-typed terms, when the
    capability returns a list of names, [AgenticSearch.search] returns one
    result per returned name that is a key of the table, in the order
    returned and repeated as often as returned; the other names are
    skipped.  Each result has confidence 1.0, match type "agentic" and the
    definitions of its term. *)
Theorem agentic_search_answers (WRatio : string → string → Q)
    (repr : Raw.pyval → string) (list_of_set : list string → list string)
    (run : string → string → run_result) s m query context names :
  holds s m →
  run (full_query query context) (get_all_terms_text list_of_set m) =
    Answered names →
  ∃ l, Untyped.agentic_search WRatio repr list_of_set (Some run) s query context =
         Returned l ∧
       term <$> l = filter (λ t, t ∈ keys (glossary m)) names ∧
       Forall (λ r, confidence r = 1%Q ∧ match_type r = "agentic" ∧
                    definitions r = gt_definitions (get_term_object m (term r)))
              l.
Proof.
  intros Hh Hrun. unfold Untyped.agentic_search, Untyped.agentic_try.
  rewrite (get_all_terms_text_typed repr list_of_set s m) by done.
  rewrite Hrun, (responses_typed repr s m) by done.
  eexists. split; [done|]. rewrite app_nil_l. split.
  - rewrite <- list_fmap_compose.
    rewrite (list_fmap_ext _ id) by done. by rewrite list_fmap_id.
  - apply Forall_forall. by intros r (t & -> & _)%list_elem_of_fmap.
Qed.

Lemma agentic_search_answers_witness :
  holds (Raw.init (Raw.Parsed (Raw.encode web_corpus))).2 (loaded web_corpus) ∧
  (λ _ _ : string, Answered ["TCP"; "FTP"; "HTTP"; "TCP"])
    (full_query "protocols" None) (get_all_terms_text id (loaded web_corpus)) =
    Answered ["TCP"; "FTP"; "HTTP"; "TCP"] ∧
  ∃ l, Untyped.agentic_search sample_ratio (λ _, "") id
         (Some (λ _ _, Answered ["TCP"; "FTP"; "HTTP"; "TCP"]))
         (Raw.init (Raw.Parsed (Raw.encode web_corpus))).2 "protocols" None =
         Returned l ∧
       term <$> l = filter (λ t, t ∈ keys (glossary (loaded web_corpus)))
                           ["TCP"; "FTP"; "HTTP"; "TCP"] ∧
       Forall (λ r, confidence r = 1%Q ∧ match_type r = "agentic" ∧
                    definitions r =
                      gt_definitions (get_term_object (loaded web_corpus) (term r)))
              l.
Proof.
  pose proof (init_encode_holds web_corpus) as Hh.
  split; [exact Hh|]. split; [reflexivity|].
  exact (agentic_search_answers sample_ratio (λ _, "") id
           (λ _ _, Answered ["TCP"; "FTP"; "HTTP"; "TCP"])
           (Raw.init (Raw.Parsed (Raw.encode web_corpus))).2
           (loaded web_corpus) "protocols" None
           ["TCP"; "FTP"; "HTTP"; "TCP"] Hh eq_refl).
Defined.
